(** * Plink audio engine: AudioManager and AudioSequence (audio.js)

    A shallow embedding of the audio part of Plink: the sound library and
    the loop registry of [AudioManager], [play], [stopLoop], [speak], the
    cue parser of [speakWithSoundEffects], and the callback-driven
    [AudioSequence] run against an event-driven host (completion callbacks,
    timers and a millisecond clock). *)

From Stdlib Require Import List String Ascii ZArith QArith Qminmax Lqa Bool Lia.
Import ListNotations.
Open Scope string_scope.
Open Scope list_scope.

(* ------------------------------------------------------------------ *)
(** ** JavaScript strings: [split(' ')] and the cue regular expression *)

(** [s.split(' ')]: cut at every single space character; [k] spaces give
    [k+1] pieces (empty pieces included). *)
Fixpoint split_sp (s : string) : list string :=
  match s with
  | EmptyString => [EmptyString]
  | String c s' =>
      if Ascii.eqb c " "%char then EmptyString :: split_sp s'
      else match split_sp s' with
           | h :: t => String c h :: t
           | [] => [String c EmptyString]
           end
  end.

(** Line terminators, which [.] does not match (ASCII part: LF and CR). *)
Definition is_line_terminator (c : ascii) : bool :=
  Ascii.eqb c (ascii_of_nat 10) || Ascii.eqb c (ascii_of_nat 13).

(** The tail of the pattern (a greedy group of any characters, then two
    closing braces), greedy with backtracking: the longest
    prefix free of line terminators that is followed by [}}]. *)
Fixpoint greedy_close (r : string) : option string :=
  match r with
  | EmptyString => None
  | String c r' =>
      match (if is_line_terminator c then None
             else option_map (String c) (greedy_close r')) with
      | Some p => Some p
      | None => if String.prefix "}}" r then Some EmptyString else None
      end
  end.

(** [t.match(PATTERN)], PATTERN being two opening braces, a greedy group
    of any characters and two closing braces: the string is turned into a
    RegExp in which the braces are literal characters; the result is the capture group of the
    leftmost match, or [None] for [null]. *)
Fixpoint cue_match (t : string) : option string :=
  match t with
  | EmptyString => None
  | String c t' =>
      match (match t with
             | String "{" (String "{" r) => greedy_close r
             | _ => None
             end) with
      | Some p => Some p
      | None => cue_match t'
      end
  end%char.

(* ------------------------------------------------------------------ *)
(** ** Queue entries ([AudioSequence.add]) *)

(** [{ voicePreference: ... }]; [None] is JavaScript [null]. *)
Record speech_prefs := { voicePreference : option string }.

(** [{ item, mediaType, prefs }]; [prefs] is [undefined] ([None]) for
    sound entries, which are added without preferences. *)
Record entry := {
  item : string;
  mediaType : string;
  prefs : option speech_prefs
}.

Definition text_entry (s : string) (vp : option string) : entry :=
  {| item := s; mediaType := "text"; prefs := Some {| voicePreference := vp |} |}.

Definition sound_entry (name : string) : entry :=
  {| item := name; mediaType := "sound"; prefs := None |}.

(** The token loop of [speakWithSoundEffects] (lines 185-205): [buffer] is
    the accumulated text, flushed before each cue and at the end when it is
    not empty; each plain token is appended as [" " + token]. *)
Fixpoint parse_tokens (vp : option string) (tokens : list string) (buffer : string)
  : list entry :=
  match tokens with
  | [] => if Nat.ltb 0 (String.length buffer) then [text_entry buffer vp] else []
  | tok :: rest =>
      match cue_match tok with
      | Some soundName =>
          app (if Nat.ltb 0 (String.length buffer) then [text_entry buffer vp] else [])
              (sound_entry soundName :: parse_tokens vp rest EmptyString)
      | None => parse_tokens vp rest (String.append buffer (String.append " " tok))
      end
  end.

(** The queue [speakWithSoundEffects(formattedText, {voicePreference})]
    builds before calling [queue.start()]. *)
Definition parse_cues (vp : option string) (formattedText : string) : list entry :=
  parse_tokens vp (split_sp formattedText) EmptyString.

Definition is_sound (e : entry) : bool := String.eqb (mediaType e) "sound".
Definition is_text (e : entry) : bool := String.eqb (mediaType e) "text".

(* ------------------------------------------------------------------ *)
(** ** AudioManager: sound library, loop registry, play, stopLoop, speak *)

(** Values read from the plain object [soundLibrary]: a decoded
    [AudioBuffer] (an own property set by [addSound], or the library's
    prototype read through ["__proto__"]), a property that is not an
    [AudioBuffer] (a function inherited from a prototype, or
    [Object.prototype] itself read through ["__proto__"]), or a getter of
    [AudioBuffer.prototype] that throws when read on the library, which is
    not an [AudioBuffer]. *)
Inductive libval := JBuffer (buf : nat) | JInherited | JThrowingGetter.

(** Property names every plain object inherits from [Object.prototype];
    [name in obj] is true for them. *)
Definition object_prototype_keys : list string :=
  ["constructor"; "hasOwnProperty"; "isPrototypeOf"; "propertyIsEnumerable";
   "toLocaleString"; "toString"; "valueOf"; "__defineGetter__";
   "__defineSetter__"; "__lookupGetter__"; "__lookupSetter__"; "__proto__"].

(** The string-named members of [AudioBuffer.prototype]: the read-only
    attributes (getters, no setter) and the data properties (methods and
    [constructor]). *)
Definition audioBuffer_getter_keys : list string :=
  ["length"; "duration"; "sampleRate"; "numberOfChannels"].

Definition audioBuffer_method_keys : list string :=
  ["getChannelData"; "copyFromChannel"; "copyToChannel"; "constructor"].

(** The library as an association list, newest first. A pair under
    ["__proto__"] is not an own property: [soundLibrary["__proto__"] = buf]
    runs the [Object.prototype.__proto__] setter, which makes [buf] the
    prototype of the library; the pair records that prototype, which
    ["__proto__"] then reads back. *)
Fixpoint own_lookup (name : string) (lib : list (string * nat)) : option nat :=
  match lib with
  | [] => None
  | (k, b) :: rest => if String.eqb k name then Some b else own_lookup name rest
  end.

(** [soundLibrary[name]] ([None] is [undefined]): own properties first,
    then [AudioBuffer.prototype] when a buffer is the prototype, then
    [Object.prototype]. *)
Definition lib_get (name : string) (lib : list (string * nat)) : option libval :=
  let from_object :=
    if existsb (String.eqb name) object_prototype_keys then Some JInherited
    else None in
  match own_lookup name lib with
  | Some b => Some (JBuffer b)
  | None =>
      match own_lookup "__proto__" lib with
      | Some _ =>
          if existsb (String.eqb name) audioBuffer_getter_keys then Some JThrowingGetter
          else if existsb (String.eqb name) audioBuffer_method_keys then Some JInherited
          else from_object
      | None => from_object
      end
  end.

(** [name in soundLibrary]. *)
Definition js_in (name : string) (lib : list (string * nat)) : bool :=
  match lib_get name lib with Some _ => true | None => false end.

(** [{ soundName, loopHandle, isPlaying }], pushed by [play] for loops. *)
Record loop_entry := {
  soundName : string;
  loopHandle : nat;
  isPlaying : bool
}.

(** Audio nodes, named after the buffer source they were created for. *)
Inductive node :=
  | N_source (id : nat)
  | N_gain (id : nat) (gain : Q)
  | N_panner (id : nat) (pan : Q)
  | N_destination.

(** What the manager does to the audio context, the speech engine and the
    window: node connections, [start]/[stop], [onended] registration, the
    utterance handed to [speechSynthesis.speak], and the two custom events. *)
Inductive effect :=
  | Fx_connect (a b : node)
  | Fx_onended (id : nat)
  | Fx_start (id : nat) (when : Q)
  | Fx_stop (id : nat)
  | Fx_soundEffect (name : string) (panValue volume : Q) (loop : bool)
  | Fx_utterance (text : string) (voice : option string) (rate : Q)
  | Fx_speak (text : string).

Record Manager := {
  soundLibrary : list (string * nat);
  loops : list loop_entry;
  next_node : nat;          (** ids for [createBufferSource] *)
  fx : list effect          (** everything done so far, oldest first *)
}.

Definition fresh_manager : Manager :=
  {| soundLibrary := []; loops := []; next_node := 0; fx := [] |}.

(** Exceptions: [Error(msg)], the host's [TypeError], the [RangeError] of
    [AudioScheduledSourceNode.start] and the [InvalidStateError]
    [DOMException] of [stop] (the last two with the browser's message). *)
Inductive exn :=
  | Exn_Error (msg : string)
  | Exn_TypeError (msg : string)
  | Exn_RangeError
  | Exn_InvalidStateError.

Inductive outcome (A : Type) := Ok (a : A) | Throw (e : exn).
Arguments Ok {A} a.
Arguments Throw {A} e.

(** The destructured options of [play]; [callback] records whether a
    callback was given (what it does is the caller's business). *)
Record play_opts := {
  callback : bool;
  volume : Q;
  panValue : Q;
  loop : bool;
  offset : Q
}.

Definition default_play_opts : play_opts :=
  {| callback := false; volume := 1; panValue := 0; loop := false; offset := 0 |}.

(** [a < b] on numbers. *)
Definition Qltb (a b : Q) : bool := negb (Qle_bool b a).

(** [soundLibrary[name] = audioBuffer] fails (class code is strict) when
    [name] is not an own property and resolves to a getter without setter
    of [AudioBuffer.prototype], which is on the chain once a buffer was
    stored under ["__proto__"]. *)
Definition addSound_blocked (name : string) (lib : list (string * nat)) : bool :=
  match own_lookup name lib, own_lookup "__proto__" lib with
  | None, Some _ => existsb (String.eqb name) audioBuffer_getter_keys
  | _, _ => false
  end.

(** [addSound(name, fileName)] once fetch and decode have completed:
    [soundLibrary[name] = audioBuffer] (for ["__proto__"]: the new
    prototype, see [own_lookup]). When the assignment throws, the returned
    promise rejects and the manager is unchanged. *)
Definition addSound (name : string) (buf : nat) (m : Manager) : Manager :=
  if addSound_blocked name (soundLibrary m) then m
  else
  {| soundLibrary := (name, buf) :: filter (fun p => negb (String.eqb (fst p) name))
                                          (soundLibrary m);
     loops := loops m; next_node := next_node m; fx := fx m |}.

(** The gain and pan stages of [play] (lines 112-127): the connections made
    and the node finally connected to the destination. *)
Definition play_graph (src : nat) (o : play_opts) : list effect :=
  let '(cur1, c1) :=
    if negb (Qeq_bool (volume o) 1)
    then (N_gain src (volume o), [Fx_connect (N_source src) (N_gain src (volume o))])
    else (N_source src, []) in
  let '(cur2, c2) :=
    if negb (Qeq_bool (panValue o) 0)
    then (N_panner src (panValue o), [Fx_connect cur1 (N_panner src (panValue o))])
    else (cur1, []) in
  c1 ++ c2 ++ [Fx_connect cur2 N_destination].

(** [play(name, options)] (lines 95-136). *)
Definition play (name : string) (o : play_opts) (m : Manager) : Manager * outcome nat :=
  match lib_get name (soundLibrary m) with
  | None => (m, Throw (Exn_Error (String.append "Sound " (String.append name " not found"))))
  | Some v =>
      let src := next_node m in
      match v with
      | JInherited =>
          (* [sampleSource.buffer = ...] rejects a value that is not an
             AudioBuffer *)
          ({| soundLibrary := soundLibrary m; loops := loops m;
              next_node := S src; fx := fx m |},
           Throw (Exn_TypeError "Failed to set the 'buffer' property on 'AudioBufferSourceNode'"))
      | JThrowingGetter =>
          (* reading [this.soundLibrary[name]] runs the getter on a
             non-AudioBuffer receiver *)
          ({| soundLibrary := soundLibrary m; loops := loops m;
              next_node := S src; fx := fx m |},
           Throw (Exn_TypeError "Illegal invocation"))
      | JBuffer _ =>
          let loops' :=
            if loop o
            then loops m ++ [{| soundName := name; loopHandle := src; isPlaying := true |}]
            else loops m in
          let wired :=
            (if callback o then [Fx_onended src] else [])
            ++ play_graph src o in
          if Qltb (offset o) 0 then
            (* [sampleSource.start(offset)] throws for a negative time:
               the node is never started and no event is sent *)
            ({| soundLibrary := soundLibrary m; loops := loops';
                next_node := S src; fx := fx m ++ wired |},
             Throw Exn_RangeError)
          else
          ({| soundLibrary := soundLibrary m; loops := loops';
              next_node := S src;
              fx := fx m ++ wired
                         ++ [Fx_start src (offset o);
                             Fx_soundEffect name (panValue o) (volume o) (loop o)] |},
           Ok src)
      end
  end.

Definition loop_matches (name : string) (it : loop_entry) : bool :=
  String.eqb (soundName it) name && isPlaying it.

(** Whether [start] succeeded on node [h]: the node's
    [[source started]] flag. *)
Definition node_started (h : nat) (l : list effect) : bool :=
  existsb (fun f => match f with Fx_start i _ => Nat.eqb i h | _ => false end) l.

(** The [forEach] of [stopLoop] (lines 141-146) over the registry: each
    matching live entry gets [loopHandle.stop()] and [isPlaying = false];
    [stop()] on a node that was never started throws [InvalidStateError],
    which ends the loop with the entries seen so far updated in place.
    Returns the registry, the [stop] calls made, and the exception. *)
Fixpoint stop_each (name : string) (started : nat -> bool) (l : list loop_entry)
  : list loop_entry * list effect * option exn :=
  match l with
  | [] => ([], [], None)
  | it :: rest =>
      if loop_matches name it then
        if started (loopHandle it) then
          let '(rest', stops, err) := stop_each name started rest in
          ({| soundName := soundName it; loopHandle := loopHandle it;
              isPlaying := false |} :: rest', Fx_stop (loopHandle it) :: stops, err)
        else (it :: rest, [], Some Exn_InvalidStateError)
      else
        let '(rest', stops, err) := stop_each name started rest in
        (it :: rest', stops, err)
  end.

(** [stopLoop(name)] (lines 140-150): the [forEach], then, if it finished,
    [this.loops = this.loops.filter(item => item.isPlaying)]. *)
Definition stopLoop (name : string) (m : Manager) : Manager * outcome unit :=
  let '(cleared, stopped, err) :=
    stop_each name (fun h => node_started h (fx m)) (loops m) in
  match err with
  | None =>
      ({| soundLibrary := soundLibrary m;
          loops := filter isPlaying cleared;
          next_node := next_node m;
          fx := fx m ++ stopped |}, Ok tt)
  | Some x =>
      ({| soundLibrary := soundLibrary m;
          loops := cleared;
          next_node := next_node m;
          fx := fx m ++ stopped |}, Throw x)
  end.

(** [speak(text, {callback, voicePreference, speechRate = 1.5})]: the
    utterance goes to the speech engine (the voice is looked up by name
    there, the default voice when absent) and a [speak] event is sent. *)
Definition speak (text : string) (vp : option string) (m : Manager) : Manager :=
  {| soundLibrary := soundLibrary m; loops := loops m; next_node := next_node m;
     fx := fx m ++ [Fx_utterance text vp (3 # 2); Fx_speak text] |}.

(** Manager operations a game performs directly; the state after each,
    whether it returned or threw. *)
Inductive mgr_op :=
  | Op_addSound (name : string) (buf : nat)
  | Op_play (name : string) (o : play_opts)
  | Op_stopLoop (name : string).

Definition mgr_apply (m : Manager) (op : mgr_op) : Manager :=
  match op with
  | Op_addSound name buf => addSound name buf m
  | Op_play name o => fst (play name o m)
  | Op_stopLoop name => fst (stopLoop name m)
  end.

Definition mgr_run (m : Manager) (ops : list mgr_op) : Manager :=
  fold_left mgr_apply ops m.

(* ------------------------------------------------------------------ *)
(** ** AudioSequence driven by the host *)

(** An [AudioSequence] object. The fields [playing] and [currentItem] of
    the constructor are written but never read, and are left out. *)
Record Seq := {
  sq_queue : list entry;
  sq_spacing : Z;           (** ms, [spacing = 100] *)
  sq_isPlaying : bool       (** [undefined] (false) until [start] *)
}.

(** Continuations the host holds for a sequence: the completion callback
    of the utterance or sound in flight ([(e) => this.callback()]), or the
    timer of [sleep(spacing).then(() => this.doNext())]. *)
Inductive cont := K_callback | K_timer (due : Z).

(** What the engine did, tagged with the sequence it did it for, newest
    first: the queue a [speakWithSoundEffects] call built, each item handed
    to [speak] or [play], each completion callback, and each exception
    escaping from the sequence's code. *)
Inductive ev :=
  | Ev_enqueue (id : nat) (items : list entry) (t : Z)
  | Ev_dispatch (id : nat) (e : entry) (t : Z)
  | Ev_complete (id : nat) (t : Z)
  | Ev_throw (id : nat) (x : exn) (t : Z).

Record World := {
  w_mgr : Manager;
  w_time : Z;                      (** host clock, ms *)
  w_seqs : list Seq;               (** every sequence created, by id *)
  w_queue : option nat;            (** [AudioManager.queue] *)
  w_pending : list (nat * cont);
  w_log : list ev
}.

Fixpoint set_nth {A} (n : nat) (x : A) (l : list A) : list A :=
  match l, n with
  | [], _ => []
  | _ :: t, O => x :: t
  | h :: t, S n' => h :: set_nth n' x t
  end.

Fixpoint remove_nth {A} (n : nat) (l : list A) : list A :=
  match l, n with
  | [], _ => []
  | _ :: t, O => t
  | h :: t, S n' => h :: remove_nth n' t
  end.

Definition set_seq (id : nat) (s : Seq) (w : World) : World :=
  {| w_mgr := w_mgr w; w_time := w_time w; w_seqs := set_nth id s (w_seqs w);
     w_queue := w_queue w; w_pending := w_pending w; w_log := w_log w |}.

Definition with_mgr (m : Manager) (w : World) : World :=
  {| w_mgr := m; w_time := w_time w; w_seqs := w_seqs w;
     w_queue := w_queue w; w_pending := w_pending w; w_log := w_log w |}.

Definition push_pending (p : nat * cont) (w : World) : World :=
  {| w_mgr := w_mgr w; w_time := w_time w; w_seqs := w_seqs w;
     w_queue := w_queue w; w_pending := p :: w_pending w; w_log := w_log w |}.

Definition log_ev (e : ev) (w : World) : World :=
  {| w_mgr := w_mgr w; w_time := w_time w; w_seqs := w_seqs w;
     w_queue := w_queue w; w_pending := w_pending w; w_log := e :: w_log w |}.

(** [cancel()]: [isPlaying = false], [queue = []]. *)
Definition cancel_seq (s : Seq) : Seq :=
  {| sq_queue := []; sq_spacing := sq_spacing s; sq_isPlaying := false |}.

(** [this.shutdown()] names no method of [AudioSequence]. *)
Definition shutdown_exn : exn := Exn_TypeError "this.shutdown is not a function".

(** [doNext()] (lines 234-249), with the exception it raises, if any. *)
Definition doNext (id : nat) (w : World) : World * option exn :=
  let shutdown :=
    (log_ev (Ev_throw id shutdown_exn (w_time w)) w, Some shutdown_exn) in
  match nth_error (w_seqs w) id with
  | None => (w, None)
  | Some s =>
      match sq_queue s with
      | [] => shutdown
      | firstItem :: rest =>
          if sq_isPlaying s then
            let w1 := set_seq id {| sq_queue := rest; sq_spacing := sq_spacing s;
                                    sq_isPlaying := sq_isPlaying s |} w in
            if String.eqb (mediaType firstItem) "text" then
              match prefs firstItem with
              | Some p =>
                  (log_ev (Ev_dispatch id firstItem (w_time w))
                     (push_pending (id, K_callback)
                        (with_mgr (speak (item firstItem) (voicePreference p) (w_mgr w1)) w1)),
                   None)
              | None =>
                  let x := Exn_TypeError "Cannot read properties of undefined" in
                  (log_ev (Ev_throw id x (w_time w)) w1, Some x)
              end
            else if String.eqb (mediaType firstItem) "sound" then
              match play (item firstItem)
                         {| callback := true; volume := 1; panValue := 0;
                            loop := false; offset := 0 |} (w_mgr w1) with
              | (m', Ok _) =>
                  (log_ev (Ev_dispatch id firstItem (w_time w))
                     (push_pending (id, K_callback) (with_mgr m' w1)), None)
              | (m', Throw x) =>
                  (log_ev (Ev_throw id x (w_time w)) (with_mgr m' w1), Some x)
              end
            else
              let x := Exn_Error "invalid media type" in
              (log_ev (Ev_throw id x (w_time w)) w1, Some x)
          else shutdown
      end
  end.

(** [callback()] (lines 271-279). *)
Definition seq_callback (id : nat) (w : World) : World :=
  match nth_error (w_seqs w) id with
  | None => w
  | Some s =>
      match sq_queue s with
      | [] => set_seq id (cancel_seq s) w
      | _ :: _ => push_pending (id, K_timer (w_time w + sq_spacing s)) w
      end
  end.

(** [speakWithSoundEffects(formattedText, {voicePreference})] (lines
    183-212): parse, [new AudioSequence(this)], [start()] (which sets
    [isPlaying] and runs [doNext]), then [this.queue = queue]. An exception
    from [start] leaves [this.queue] as it was. *)
Definition speakWithSoundEffects (formattedText : string) (vp : option string)
  (w : World) : World * option exn :=
  let id := List.length (w_seqs w) in
  let items := parse_cues vp formattedText in
  let s := {| sq_queue := items; sq_spacing := 100; sq_isPlaying := true |} in
  let w1 := {| w_mgr := w_mgr w; w_time := w_time w; w_seqs := w_seqs w ++ [s];
               w_queue := w_queue w; w_pending := w_pending w;
               w_log := Ev_enqueue id items (w_time w) :: w_log w |} in
  match doNext id w1 with
  | (w2, None) =>
      ({| w_mgr := w_mgr w2; w_time := w_time w2; w_seqs := w_seqs w2;
          w_queue := Some id; w_pending := w_pending w2; w_log := w_log w2 |}, None)
  | (w2, Some x) => (w2, Some x)
  end.

(** What can happen next: a narration call, the host running one pending
    continuation (a completion callback, or a timer that is due), time
    passing, a [cancel()] on a sequence handle, or a direct manager call. *)
Inductive label :=
  | L_speakWithSoundEffects (formattedText : string) (vp : option string)
  | L_fire (n : nat)
  | L_wait (d : Z)
  | L_cancel (id : nat)
  | L_mgr (op : mgr_op).

(** The host takes the [n]-th pending continuation to run it. *)
Definition remove_pending (n : nat) (w : World) : World :=
  {| w_mgr := w_mgr w; w_time := w_time w; w_seqs := w_seqs w;
     w_queue := w_queue w; w_pending := remove_nth n (w_pending w);
     w_log := w_log w |}.

Definition step (w : World) (l : label) : option World :=
  match l with
  | L_speakWithSoundEffects txt vp => Some (fst (speakWithSoundEffects txt vp w))
  | L_fire n =>
      match nth_error (w_pending w) n with
      | None => None
      | Some (id, k) =>
          let w1 := remove_pending n w in
          match k with
          | K_callback => Some (seq_callback id (log_ev (Ev_complete id (w_time w)) w1))
          | K_timer due =>
              if (due <=? w_time w)%Z then Some (fst (doNext id w1)) else None
          end
      end
  | L_wait d =>
      if (0 <=? d)%Z
      then Some {| w_mgr := w_mgr w; w_time := w_time w + d; w_seqs := w_seqs w;
                   w_queue := w_queue w; w_pending := w_pending w; w_log := w_log w |}
      else None
  | L_cancel id =>
      match nth_error (w_seqs w) id with
      | None => None
      | Some s => Some (set_seq id (cancel_seq s) w)
      end
  | L_mgr op => Some (with_mgr (mgr_apply (w_mgr w) op) w)
  end.

Fixpoint run (w : World) (ls : list label) : option World :=
  match ls with
  | [] => Some w
  | l :: ls' => match step w l with Some w' => run w' ls' | None => None end
  end.

Definition init_world : World :=
  {| w_mgr := fresh_manager; w_time := 0; w_seqs := []; w_queue := None;
     w_pending := []; w_log := [] |}.

Definition reachable (w : World) : Prop := exists ls, run init_world ls = Some w.

(* ------------------------------------------------------------------ *)
(** ** Observations used by the statements *)

(** The cue names of a token list, in order: what the tokens matching the
    cue pattern capture. *)
Fixpoint cue_names (tokens : list string) : list string :=
  match tokens with
  | [] => []
  | t :: ts => match cue_match t with
               | Some n => n :: cue_names ts
               | None => cue_names ts
               end
  end.

Definition count_by (f : entry -> bool) (l : list entry) : nat :=
  List.length (filter f l).

(** Consecutive connections along a chain of nodes. *)
Fixpoint links (ns : list node) : list effect :=
  match ns with
  | a :: ((b :: _) as rest) => Fx_connect a b :: links rest
  | _ => []
  end.

(** The chain [play] is meant to build for a source [src]. *)
Definition stage_chain (src : nat) (o : play_opts) : list node :=
  N_source src
  :: (if negb (Qeq_bool (volume o) 1) then [N_gain src (volume o)] else [])
  ++ (if negb (Qeq_bool (panValue o) 0) then [N_panner src (panValue o)] else [])
  ++ [N_destination].

(** Host semantics of [AudioScheduledSourceNode.start(when)]: [when] is a
    time on the context clock ([getTime()]); a time already past starts
    playback at once. *)
Definition playback_begins (now when : Q) : Q := Qmax now when.

(** A sequence's own events, newest first: dispatches and completions. *)
Inductive sev := SDisp (e : entry) (t : Z) | SDone (t : Z).

Fixpoint proj (id : nat) (log : list ev) : list sev :=
  match log with
  | [] => []
  | Ev_dispatch j e t :: l => if Nat.eqb j id then SDisp e t :: proj id l else proj id l
  | Ev_complete j t :: l => if Nat.eqb j id then SDone t :: proj id l else proj id l
  | _ :: l => proj id l
  end.

(** Where a sequence is in its queue [orig]: [k] items dispatched and
    completed, the last completion at [last]; or the [k]-th item [e]
    dispatched at [t] and in flight. *)
Inductive phase :=
  | Ph_done (k : nat) (last : option Z)
  | Ph_flight (k : nat) (e : entry) (t : Z).

(** The ordering discipline of one sequence with spacing [sp] over its
    queue [orig]: items are dispatched in queue order, each one only after
    the previous one completed and [sp] ms later, and each completes after
    its dispatch. *)
Inductive hist (sp : Z) (orig : list entry) : list sev -> phase -> Prop :=
  | hist_nil : hist sp orig [] (Ph_done 0 None)
  | hist_disp evs k last e t :
      hist sp orig evs (Ph_done k last) ->
      nth_error orig k = Some e ->
      (forall c, last = Some c -> (c + sp <= t)%Z) ->
      hist sp orig (SDisp e t :: evs) (Ph_flight k e t)
  | hist_done evs k e t c :
      hist sp orig evs (Ph_flight k e t) ->
      (t <= c)%Z ->
      hist sp orig (SDone c :: evs) (Ph_done (S k) (Some c)).

(** Continuations pending for sequence [id]. *)
Definition pend (id : nat) (ps : list (nat * cont)) : list cont :=
  map snd (filter (fun p => Nat.eqb (fst p) id) ps).

(** The sequence an event belongs to. *)
Definition ev_id (e : ev) : nat :=
  match e with
  | Ev_enqueue j _ _ | Ev_dispatch j _ _ | Ev_complete j _ | Ev_throw j _ _ => j
  end.

(** How the phase of a sequence matches its object and the continuations
    the host holds for it: one completion callback while an item is in
    flight; otherwise nothing, or one timer due [100] ms after the last
    completion. The remaining queue is the unplayed part of the original
    one, or empty after [cancel()]. *)
Definition phase_ok (ph : phase) (s : Seq) (orig : list entry) (ks : list cont)
  (now : Z) : Prop :=
  match ph with
  | Ph_flight k _ t =>
      ks = [K_callback] /\ (t <= now)%Z
      /\ (sq_queue s = skipn (S k) orig \/ sq_queue s = [])
  | Ph_done k last =>
      ks = []
      \/ exists c, last = Some c /\ ks = [K_timer (c + 100)]
                  /\ (sq_queue s = skipn k orig \/ sq_queue s = [])
  end.

Definition seq_ok (w : World) (id : nat) (orig : list entry) : Prop :=
  exists s ph, nth_error (w_seqs w) id = Some s
               /\ hist 100 orig (proj id (w_log w)) ph
               /\ phase_ok ph s orig (pend id (w_pending w)) (w_time w).

(** The invariant of every reachable world. *)
Definition Inv (w : World) : Prop :=
  Forall (fun s => sq_spacing s = 100%Z) (w_seqs w)
  /\ (forall e, In e (w_log w) -> (ev_id e < List.length (w_seqs w))%nat)
  /\ (forall p, In p (w_pending w) -> (fst p < List.length (w_seqs w))%nat)
  /\ (forall j, (j < List.length (w_seqs w))%nat ->
                exists orig t, In (Ev_enqueue j orig t) (w_log w))
  /\ (forall j orig t, In (Ev_enqueue j orig t) (w_log w) -> seq_ok w j orig).

(* ------------------------------------------------------------------ *)
(** ** Auxiliary definitions and concrete scenarios *)

Definition live (e : loop_entry) : Prop := isPlaying e = true.

Definition opts_half_left : play_opts :=
  {| callback := false; volume := 1 # 2; panValue := -1; loop := false; offset := 3 |}.

Definition opts_at_2 : play_opts :=
  {| callback := false; volume := 1; panValue := 0; loop := false; offset := 2 |}.

Definition well_formed_entry (e : entry) : Prop :=
  is_sound e = true \/ (is_text e = true /\ (0 < String.length (item e))%nat).

Definition world_with_b : World := with_mgr (addSound "b" 1 fresh_manager) init_world.

Definition trace_two_narrations : list label :=
  [L_mgr (Op_addSound "a" 1); L_speakWithSoundEffects "x {{a}}" None;
   L_fire 0; L_wait 100; L_speakWithSoundEffects "y" None].

Definition trace_cancel_in_spacing : list label :=
  [L_mgr (Op_addSound "a" 1); L_speakWithSoundEffects "hello {{a}}" None;
   L_fire 0; L_cancel 0].

Definition queue_you_win : list entry :=
  [text_entry " You win" None; sound_entry "win"; text_entry " great job" None].

Definition trace_you_win : list label :=
  [L_mgr (Op_addSound "win" 1); L_speakWithSoundEffects "You win {{win}} great job" None;
   L_fire 0; L_wait 100; L_fire 0; L_wait 500; L_fire 0; L_wait 100; L_fire 0].

Definition world_you_win : World :=
  match run init_world trace_you_win with Some w => w | None => init_world end.

(* ------------------------------------------------------------------ *)
(** ** Further observations on the parser, the manager and sequences *)

(** [tokens.join(' ')], the inverse of [split(' ')]. *)
Fixpoint join_sp (l : list string) : string :=
  match l with
  | [] => EmptyString
  | [x] => x
  | x :: rest => String.append x (String.append " " (join_sp rest))
  end.

(** The text a queue speaks: its text items' contents, concatenated. *)
Definition text_of (l : list entry) : string :=
  fold_right (fun e acc => if is_text e then String.append (item e) acc else acc)
             EmptyString l.

(** The plain (non-cue) tokens, each preceded by one space. *)
Fixpoint plain_text (tokens : list string) : string :=
  match tokens with
  | [] => EmptyString
  | t :: ts => match cue_match t with
               | Some _ => plain_text ts
               | None => String.append " " (String.append t (plain_text ts))
               end
  end.

(** No two text items stand next to each other. *)
Fixpoint no_adjacent_text (l : list entry) : bool :=
  match l with
  | a :: ((b :: _) as rest) => negb (is_text a && is_text b) && no_adjacent_text rest
  | _ => true
  end.

Definition lead_space (s : string) : bool :=
  match s with
  | String c _ => Ascii.eqb c " "%char
  | EmptyString => false
  end.

(** Entries [doNext] can act on without failing on its own account: a
    text entry with preferences, or a sound entry. *)
Definition entry_ok (e : entry) : Prop :=
  (mediaType e = "text" /\ prefs e <> None) \/ mediaType e = "sound".

(** The exceptions that come from [play] or from the [shutdown] call. *)
Definition seq_exn (x : exn) : Prop :=
  x = shutdown_exn
  \/ (exists name, x = Exn_Error (String.append "Sound " (String.append name " not found")))
  \/ x = Exn_TypeError "Failed to set the 'buffer' property on 'AudioBufferSourceNode'"
  \/ x = Exn_TypeError "Illegal invocation".

Definition WF (w : World) : Prop :=
  Forall (fun s => Forall entry_ok (sq_queue s)) (w_seqs w)
  /\ (forall id x t, In (Ev_throw id x t) (w_log w) -> seq_exn x).

Definition opts_loop : play_opts :=
  {| callback := false; volume := 1; panValue := 0; loop := true; offset := 0 |}.

Definition world_cancel_in_spacing : World :=
  match run init_world trace_cancel_in_spacing with Some w => w | None => init_world end.

Definition trace_after_cancel : list label :=
  [L_wait 100; L_fire 0; L_speakWithSoundEffects "again {{a}}" None; L_fire 0].

Definition world_after_cancel : World :=
  match run world_cancel_in_spacing trace_after_cancel with
  | Some w => w | None => init_world end.

Definition trace_cancel_shutdown : list label :=
  trace_cancel_in_spacing ++ [L_wait 100; L_fire 0].

Definition world_cancel_shutdown : World :=
  match run init_world trace_cancel_shutdown with Some w => w | None => init_world end.

(* ------------------------------------------------------------------ *)
(** ** A game on the engine: the rhythm game

    The rhythm game calls the engine with [addSound], [play], [speak] and
    [getTime]. The framework speaks its boot prompt, runs [gameSetup] and
    [gameIntroduction], then [gamePlay] on a key press; after that the
    host calls [gameLoop] every 100 ms ([setInterval]) and [handleInput]
    for every controller key. The clock [getTime()] is the time carried by
    each event, in seconds. *)

Definition backingTrack : string := "b.ssb.s.b.ssb...".
Definition song : string := "........UUU.....DDD.....UDU.....UDR.............".
Definition inpt : string := "............uuu.....ddd.....udu.....udr.........".

Definition LOOKAHEAD : Q := 1.
Definition TIME_BEFORE : Q := 1 # 10.
Definition TIME_AFTER : Q := 1 # 10.
Definition STARTUP_DELAY : Q := 5.

Definition Q_of_nat (n : nat) : Q := inject_Z (Z.of_nat n).

(** [s[i]] used as a property name or compared with a string: the
    one-character string, or [undefined] past the end, which [name in obj],
    [obj[name]] and string concatenation all turn into "undefined". *)
Definition js_index (s : string) (i : nat) : string :=
  match String.get i s with
  | Some c => String c EmptyString
  | None => "undefined"
  end.

Record target := { t_startTime : nat; direction : ascii }.

Fixpoint setup_from (p : string) (i : nat) : list target :=
  match p with
  | EmptyString => []
  | String c p' =>
      if Ascii.eqb c "."%char then setup_from p' (S i)
      else {| t_startTime := i; direction := c |} :: setup_from p' (S i)
  end.

(** [setupTargets()] over the input pattern [p] ([inpt] in the game). *)
Definition setupTargets_of (p : string) : list target := setup_from p 0.

(** The values the game assigns to [gameState]: [null], "playing" and
    "gameover". *)
Inductive gstate := GS_null | GS_playing | GS_gameover.

(** The game's globals. [activeDirection] is only ever set to [null] and
    never read, and is left out; [totalBeats] is the global that
    [resetGame] creates by assigning it ([None] until then). *)
Record Game := {
  g_mgr : Manager;
  targets : list target;
  gameState : gstate;
  currentStep : nat;
  totalSteps : nat;
  startTime : Q;
  mistakes : nat;
  totalBeats : option nat
}.

Definition game_init (m : Manager) : Game :=
  {| g_mgr := m; targets := []; gameState := GS_null; currentStep := 0;
     totalSteps := 0; startTime := -1; mistakes := 0; totalBeats := None |}.

Definition game_set_mgr (m : Manager) (g : Game) : Game :=
  {| g_mgr := m; targets := targets g; gameState := gameState g;
     currentStep := currentStep g; totalSteps := totalSteps g;
     startTime := startTime g; mistakes := mistakes g; totalBeats := totalBeats g |}.

Definition game_set_targets (ts : list target) (g : Game) : Game :=
  {| g_mgr := g_mgr g; targets := ts; gameState := gameState g;
     currentStep := currentStep g; totalSteps := totalSteps g;
     startTime := startTime g; mistakes := mistakes g; totalBeats := totalBeats g |}.

Definition game_set_mistakes (n : nat) (g : Game) : Game :=
  {| g_mgr := g_mgr g; targets := targets g; gameState := gameState g;
     currentStep := currentStep g; totalSteps := totalSteps g;
     startTime := startTime g; mistakes := n; totalBeats := totalBeats g |}.

Definition game_set_steps (ts cs : nat) (g : Game) : Game :=
  {| g_mgr := g_mgr g; targets := targets g; gameState := gameState g;
     currentStep := cs; totalSteps := ts;
     startTime := startTime g; mistakes := mistakes g; totalBeats := totalBeats g |}.

(** Sequencing in the game's code: an exception skips the rest of the
    handler and leaves the state changed so far. *)
Definition gthen (r : Game * option exn) (k : Game -> Game * option exn)
  : Game * option exn :=
  match r with
  | (g, None) => k g
  | (g, Some x) => (g, Some x)
  end.

(** [window.AudioManager.play(name, options)] called by the game. *)
Definition game_play (name : string) (o : play_opts) (g : Game) : Game * option exn :=
  match play name o (g_mgr g) with
  | (m', Ok _) => (game_set_mgr m' g, None)
  | (m', Throw x) => (game_set_mgr m' g, Some x)
  end.

Definition at_offset (t : Q) : play_opts :=
  {| callback := false; volume := 1; panValue := 0; loop := false; offset := t |}.

(** [window.AudioManager.play("miss"); mistakes++;] *)
Definition play_miss (g : Game) : Game * option exn :=
  gthen (game_play "miss" default_play_opts g)
        (fun g => (game_set_mistakes (S (mistakes g)) g, None)).

Definition target_key (c : ascii) : option string :=
  if Ascii.eqb c "u"%char then Some "ArrowUp"
  else if Ascii.eqb c "d"%char then Some "ArrowDown"
  else if Ascii.eqb c "l"%char then Some "ArrowLeft"
  else if Ascii.eqb c "r"%char then Some "ArrowRight"
  else None.

Definition adjusted_time (t : target) (g : Game) : Q :=
  Q_of_nat (t_startTime t) + startTime g + STARTUP_DELAY.

(** [resetGame()]: it assigns [totalBeats], not [totalSteps]. *)
Definition resetGame (now : Q) (g : Game) : Game :=
  {| g_mgr := g_mgr g; targets := setupTargets_of inpt; gameState := GS_null;
     currentStep := 0; totalSteps := totalSteps g; startTime := now;
     mistakes := 0; totalBeats := Some 0%nat |}.

(** [handleInput(key)] at clock time [now]. *)
Definition handleInput (key : string) (now : Q) (g : Game) : Game * option exn :=
  match gameState g with
  | GS_playing =>
      match targets g with
      | [] => play_miss g
      | target :: rest =>
          let adjustedTime := adjusted_time target g in
          if Qltb now (adjustedTime - TIME_BEFORE) then play_miss g
          else if Qle_bool (adjustedTime - TIME_BEFORE) now then
            match target_key (direction target) with
            | None => (g, Some (Exn_Error "invalid instruction"))
            | Some targetKey =>
                if negb (String.eqb key targetKey) then
                  gthen (play_miss g) (fun g => (game_set_targets rest g, None))
                else
                  gthen (game_play (String (direction target) EmptyString)
                                   default_play_opts g)
                        (fun g => (game_set_targets rest g, None))
            end
          else (g, Some (Exn_Error "timing error with target"))
      end
  | GS_gameover => if String.eqb key "a" then (resetGame now g, None) else (g, None)
  | GS_null => (g, None)
  end.

(** The first part of [gameLoop]: drop the first target once it is more
    than [TIME_AFTER] late. *)
Definition expire (now : Q) (g : Game) : Game :=
  match targets g with
  | target :: rest =>
      if Qltb (adjusted_time target g + TIME_AFTER) now
      then game_set_targets rest g else g
  | [] => g
  end.

(** The scheduling part of [gameLoop] (lines 154-173); [song[totalSteps / 4]]
    is read only when [totalSteps % 4 == 0], so the index is whole. *)
Definition schedule_step (now : Q) (g : Game) : Game * option exn :=
  let nextStepTime := Q_of_nat (totalSteps g) * 1 / 4 + startTime g + STARTUP_DELAY in
  let timeUntilStep := nextStepTime - now in
  if Qltb timeUntilStep LOOKAHEAD then
    gthen (if negb (String.eqb (js_index backingTrack (currentStep g)) ".")
           then game_play (js_index backingTrack (currentStep g)) (at_offset nextStepTime) g
           else (g, None))
      (fun g =>
       gthen (if Nat.eqb (totalSteps g mod 4) 0 then
                let instruction := js_index song (totalSteps g / 4) in
                if negb (String.eqb instruction ".")
                then game_play instruction (at_offset nextStepTime) g
                else (g, None)
              else (g, None))
         (fun g => (game_set_steps (S (totalSteps g)) (S (totalSteps g) mod 16) g, None)))
  else (g, None).

(** Decimal digits of a number, as a template literal prints it. *)
Fixpoint digits_aux (fuel n : nat) (acc : string) : string :=
  match fuel with
  | O => acc
  | S f =>
      let acc' := String (ascii_of_nat (48 + n mod 10)) acc in
      if Nat.ltb n 10 then acc' else digits_aux f (n / 10) acc'
  end.

Definition nat_to_string (n : nat) : string := digits_aux (S n) n EmptyString.

Definition game_over_text (n : nat) : string :=
  String.append "Game over. You made "
    (String.append (nat_to_string n) " mistakes. Press A to restart.").

Definition game_over (g : Game) : Game :=
  {| g_mgr := speak (game_over_text (mistakes g)) None (g_mgr g);
     targets := targets g; gameState := GS_gameover;
     currentStep := currentStep g; totalSteps := totalSteps g;
     startTime := startTime g; mistakes := mistakes g; totalBeats := totalBeats g |}.

(** [gameLoop()] at clock time [now]. *)
Definition gameLoop (now : Q) (g : Game) : Game * option exn :=
  match gameState g with
  | GS_playing =>
      gthen (schedule_step now (expire now g))
        (fun g => if Nat.leb (String.length song * 4) (totalSteps g)
                  then (game_over g, None) else (g, None))
  | _ => (g, None)
  end.

(** [gamePlay()] at clock time [now] (the interval it starts is the
    host's stream of [gameLoop] calls). *)
Definition gamePlay (now : Q) (g : Game) : Game :=
  {| g_mgr := g_mgr g; targets := setupTargets_of inpt; gameState := GS_playing;
     currentStep := currentStep g; totalSteps := totalSteps g;
     startTime := now; mistakes := mistakes g; totalBeats := totalBeats g |}.

(** [gameSetup()] once every sound has loaded (buffers numbered in load
    order). *)
Definition gameSetup (m : Manager) : Manager :=
  addSound "miss" 10 (addSound "s" 9 (addSound "b" 8 (addSound "r" 7
    (addSound "R" 6 (addSound "l" 5 (addSound "L" 4 (addSound "d" 3
    (addSound "D" 2 (addSound "u" 1 (addSound "U" 0 m)))))))))).

Definition gameIntroduction (m : Manager) : Manager :=
  speak "Now it's time to be a DJ. I'll call out directions to the beat. Then, you copy them. Press the A button when you're ready."
        (Some "Fred") m.

(** The framework's boot prompt. *)
Definition engine_boot : Manager :=
  speak "Press a key or tap the screen to begin." None fresh_manager.

(** The game as [gamePlay] leaves it at clock time [t0]. *)
Definition game_start (t0 : Q) : Game :=
  gamePlay t0 (game_init (gameIntroduction (gameSetup engine_boot))).

(** What the host does next: a [gameLoop] tick or a key press, each at
    its clock time. *)
Inductive gev := G_tick (now : Q) | G_key (key : string) (now : Q).

Definition game_step (g : Game) (e : gev) : Game * option exn :=
  match e with
  | G_tick now => gameLoop now g
  | G_key key now => handleInput key now g
  end.

(** A run of the game: the final state and the exceptions thrown by the
    handlers, in order (the host keeps calling the handlers after one
    throws). *)
Fixpoint game_run (g : Game) (evs : list gev) : Game * list exn :=
  match evs with
  | [] => (g, [])
  | e :: evs' =>
      let '(g1, r) := game_step g e in
      let '(g2, xs) := game_run g1 evs' in
      (g2, match r with Some x => x :: xs | None => xs end)
  end.

(** Observations on a game run: the buzzer sounds played, and the sounds
    started with their start times. *)
Definition is_miss_fx (f : effect) : bool :=
  match f with Fx_soundEffect n _ _ _ => String.eqb n "miss" | _ => false end.

Definition count_miss (l : list effect) : nat := List.length (filter is_miss_fx l).

Fixpoint started (l : list effect) : list (string * Q) :=
  match l with
  | Fx_start _ t :: ((Fx_soundEffect n _ _ _ :: _) as rest) => (n, t) :: started rest
  | _ :: rest => started rest
  | [] => []
  end.

Definition ends_ok (l : list effect) : bool :=
  match last l (Fx_speak EmptyString) with Fx_start _ _ => false | _ => true end.

(** Names of the backing track and of the called-out instructions. *)
Definition beat_name (n : string) : bool :=
  existsb (String.eqb n) ["b"; "s"; "U"; "D"; "L"; "R"].

Definition step_time (t0 : Q) (k : nat) : Q := Q_of_nat k * 1 / 4 + t0 + STARTUP_DELAY.

(** The sounds of step [k] of the song started at [t0]: the backing track's
    sound, then on every fourth step the instruction, at the step's time. *)
Definition step_sounds (t0 : Q) (k : nat) : list (string * Q) :=
  (if negb (String.eqb (js_index backingTrack (k mod 16)) ".")
   then [(js_index backingTrack (k mod 16), step_time t0 k)] else [])
  ++ (if Nat.eqb (k mod 4) 0 && negb (String.eqb (js_index song (k / 4)) ".")
      then [(js_index song (k / 4), step_time t0 k)] else []).

Fixpoint schedule (t0 : Q) (n : nat) : list (string * Q) :=
  match n with
  | O => []
  | S k => schedule t0 k ++ step_sounds t0 k
  end.

Definition is_dir (c : ascii) : bool :=
  Ascii.eqb c "u"%char || Ascii.eqb c "d"%char || Ascii.eqb c "l"%char
  || Ascii.eqb c "r"%char.

Definition setup_library : list (string * nat) := soundLibrary (gameSetup engine_boot).

Definition registered (n : string) : bool :=
  match own_lookup n setup_library with Some _ => true | None => false end.

(** A name the game loop may play at step [k]: "." (nothing played) or a
    registered beat name. *)
Definition loop_name_ok (n : string) : bool :=
  String.eqb n "." || (registered n && beat_name n && negb (String.eqb n "miss")).

(** The manager after a successful [play(name, {offset: t})] with the
    default volume and pan. *)
Definition mgr_after (name : string) (t : Q) (m : Manager) : Manager :=
  {| soundLibrary := soundLibrary m; loops := loops m; next_node := S (next_node m);
     fx := fx m ++ [Fx_connect (N_source (next_node m)) N_destination;
                    Fx_start (next_node m) t; Fx_soundEffect name 0 1 false] |}.

Definition game_inv (t0 : Q) (g : Game) : Prop :=
  soundLibrary (g_mgr g) = setup_library
  /\ Forall (fun t => is_dir (direction t) = true) (targets g)
  /\ (gameState g = GS_playing ->
      (totalSteps g < String.length song * 4)%nat
      /\ currentStep g = totalSteps g mod 16 /\ startTime g = t0)
  /\ (gameState g <> GS_null -> mistakes g = count_miss (fx (g_mgr g)))
  /\ (gameState g = GS_gameover ->
      totalSteps g = (String.length song * 4)%nat
      /\ exists pre, fx (g_mgr g)
                     = pre ++ [Fx_utterance (game_over_text (count_miss pre)) None (3 # 2);
                               Fx_speak (game_over_text (count_miss pre))])
  /\ filter (fun p => beat_name (fst p)) (started (fx (g_mgr g))) = schedule t0 (totalSteps g)
  /\ ends_ok (fx (g_mgr g)) = true
  /\ (totalSteps g <= String.length song * 4)%nat.

Definition ticks_to_end : list gev := repeat (G_tick 100) 192.

(* ------------------------------------------------------------------ *)
(** ** The on-screen log (ui.js)

    The framework shows every [speak] event with [showMainAudio] and every
    [soundEffect] event with [showSoundEffect(name, panValue, loop)] on a
    [UserInterface] whose panel starts empty ([initializeUI]). The panel is
    the list of its child divs, oldest first. *)

Record div := { className : string; innerText : string }.

Definition createDiv (cls text : string) : div :=
  {| className := cls; innerText := text |}.

(** [removeChild(null)]: the host rejects a non-node argument. *)
Definition removeChild_null : exn :=
  Exn_TypeError "Failed to execute 'removeChild' on 'Node': parameter 1 is not of type 'Node'.".

(** The [while] loop of [showText]: remove the first child while there
    are at least [maxElements] children; with none left, [firstChild] is
    [null]. *)
Fixpoint trim_children (maxElements : nat) (children : list div) : outcome (list div) :=
  if Nat.leb maxElements (List.length children) then
    match children with
    | [] => Throw removeChild_null
    | _ :: rest => trim_children maxElements rest
    end
  else Ok children.

Definition showText (maxElements : nat) (children : list div) (d : div) : outcome (list div) :=
  match trim_children maxElements children with
  | Ok ch => Ok (ch ++ [d])
  | Throw x => Throw x
  end.

Fixpoint showText_all (maxElements : nat) (children : list div) (ds : list div)
  : outcome (list div) :=
  match ds with
  | [] => Ok children
  | d :: ds' =>
      match showText maxElements children d with
      | Ok ch => showText_all maxElements ch ds'
      | Throw x => Throw x
      end
  end.

Definition showMainAudio (text : string) : div :=
  createDiv "mainAudio" (String.append "narrator: " text).

Definition showSoundEffect (text : string) (panValue : Q) : div :=
  let prefix := "sound: " in
  let prefix := if Qltb panValue 0 then String.append prefix " (left)"
                else if Qltb 0 panValue then String.append prefix " (right)"
                else prefix in
  createDiv "soundEffect" (String.append prefix text).

(** The framework's [speak] and [soundEffect] listeners. *)
Definition ui_of_effect (f : effect) : list div :=
  match f with
  | Fx_speak text => [showMainAudio text]
  | Fx_soundEffect name pan _ _ => [showSoundEffect name pan]
  | _ => []
  end.

Definition ui_lines (l : list effect) : list div := flat_map ui_of_effect l.

(** The last [n] elements of a list. *)
Definition lastn {A : Type} (n : nat) (l : list A) : list A :=
  skipn (List.length l - n) l.

(** The loop registry's handles: distinct, and each one a buffer source
    already created. *)
Definition handles_ok (m : Manager) : Prop :=
  NoDup (map loopHandle (loops m))
  /\ Forall (fun e => (loopHandle e < next_node m)%nat) (loops m).

(** A manager operation that is not a looping [play] with a negative
    [offset] (the one call that registers a loop whose node never starts). *)
Definition loop_start_ok (op : mgr_op) : bool :=
  match op with
  | Op_play _ o => negb (loop o && Qltb (offset o) 0)
  | _ => true
  end.

(** Every registry entry is live and its node was started. *)
Definition reg_ok (m : Manager) : Prop :=
  Forall (fun e => isPlaying e = true /\ node_started (loopHandle e) (fx m) = true)
         (loops m).

Definition opts_loop_late : play_opts :=
  {| callback := false; volume := 1; panValue := 0; loop := true; offset := -1 |}.

(* ================================================================== *)
(** * Theorems *)

(* ------------------------------------------------------------------ *)
(** ** The loop registry *)

Lemma filter_isPlaying_live (l : list loop_entry) :
  Forall live (filter isPlaying l).
Proof.
  induction l as [|e l IH]; simpl; [constructor|].
  destruct (isPlaying e) eqn:E; [constructor; [exact E|]|]; exact IH.
Qed.

Lemma filter_none_true {A} (f : A -> bool) (l : list A) :
  existsb f l = false -> filter (fun x => negb (f x)) l = l.
Proof.
  induction l as [|x l IH]; simpl; [reflexivity|].
  destruct (f x); simpl; [discriminate|]. intros H; f_equal; exact (IH H).
Qed.

Lemma filter_none_false {A} (f : A -> bool) (l : list A) :
  existsb f l = false -> filter f l = [].
Proof.
  induction l as [|x l IH]; simpl; [reflexivity|].
  destruct (f x); simpl; [discriminate|]. exact IH.
Qed.

Lemma existsb_filter_neg {A} (f : A -> bool) (l : list A) :
  existsb f (filter (fun x => negb (f x)) l) = false.
Proof.
  induction l as [|x l IH]; simpl; [reflexivity|].
  destruct (f x) eqn:E; simpl; [exact IH|]. rewrite E; exact IH.
Qed.

Lemma Forall_filter_sub {A} (P : A -> Prop) (f : A -> bool) (l : list A) :
  Forall P l -> Forall P (filter f l).
Proof.
  induction 1 as [|x l Hx _ IH]; simpl; [constructor|].
  destruct (f x); [constructor; assumption|exact IH].
Qed.

Lemma manager_ext (m1 m2 : Manager) :
  soundLibrary m1 = soundLibrary m2 -> loops m1 = loops m2 ->
  next_node m1 = next_node m2 -> fx m1 = fx m2 -> m1 = m2.
Proof. destruct m1, m2; simpl; intros; subst; reflexivity. Qed.

Lemma clear_filter_live (name : string) (l : list loop_entry) :
  Forall live l ->
  filter isPlaying
    (map (fun it => if loop_matches name it
                    then {| soundName := soundName it; loopHandle := loopHandle it;
                            isPlaying := false |}
                    else it) l)
  = filter (fun e => negb (String.eqb (soundName e) name)) l.
Proof.
  induction 1 as [|e l He _ IH]; simpl; [reflexivity|].
  unfold loop_matches, live in *. rewrite He, andb_true_r.
  destruct (String.eqb (soundName e) name); simpl; [exact IH|].
  rewrite He. f_equal. exact IH.
Qed.

Lemma matches_filter_live (name : string) (l : list loop_entry) :
  Forall live l ->
  filter (loop_matches name) l = filter (fun e => String.eqb (soundName e) name) l.
Proof.
  induction 1 as [|e l He _ IH]; simpl; [reflexivity|].
  unfold loop_matches, live in *. rewrite He, andb_true_r, IH. reflexivity.
Qed.

(** When every matching entry's node was started, the [forEach] runs to
    the end: it clears the matching entries and stops their nodes. *)
Lemma stop_each_started (name : string) (started : nat -> bool) (l : list loop_entry) :
  Forall (fun e => loop_matches name e = true -> started (loopHandle e) = true) l ->
  stop_each name started l
  = (map (fun it => if loop_matches name it
                    then {| soundName := soundName it; loopHandle := loopHandle it;
                            isPlaying := false |}
                    else it) l,
     map (fun it => Fx_stop (loopHandle it)) (filter (loop_matches name) l),
     None).
Proof.
  induction 1 as [|e l He _ IH]; simpl; [reflexivity|].
  rewrite IH. destruct (loop_matches name e); [rewrite (He eq_refl)|]; reflexivity.
Qed.

Lemma node_started_app (h : nat) (l l' : list effect) :
  node_started h l = true -> node_started h (l ++ l') = true.
Proof. unfold node_started. rewrite existsb_app. intros H; rewrite H; reflexivity. Qed.

Lemma node_started_in (h : nat) (w : Q) (l : list effect) :
  In (Fx_start h w) l -> node_started h l = true.
Proof.
  intros H. apply existsb_exists. exists (Fx_start h w). split; [exact H|].
  apply Nat.eqb_refl.
Qed.

Lemma reg_ok_fx (l : list loop_entry) (f f' : list effect) :
  Forall (fun e => isPlaying e = true /\ node_started (loopHandle e) f = true) l ->
  Forall (fun e => isPlaying e = true /\ node_started (loopHandle e) (f ++ f') = true) l.
Proof.
  apply Forall_impl. intros e [A B]. split; [exact A|apply node_started_app, B].
Qed.

Lemma reg_ok_live (m : Manager) : reg_ok m -> Forall live (loops m).
Proof. apply Forall_impl. intros e [A _]. exact A. Qed.

Lemma stopLoop_live (name : string) (m : Manager) :
  reg_ok m ->
  stopLoop name m
  = ({| soundLibrary := soundLibrary m;
        loops := filter (fun e => negb (String.eqb (soundName e) name)) (loops m);
        next_node := next_node m;
        fx := fx m ++ map (fun e => Fx_stop (loopHandle e))
                          (filter (fun e => String.eqb (soundName e) name) (loops m)) |},
     Ok tt).
Proof.
  intros H. unfold stopLoop.
  rewrite stop_each_started
    by (eapply Forall_impl; [|exact H]; intros e [_ B] _; exact B).
  rewrite clear_filter_live, matches_filter_live by exact (reg_ok_live m H).
  reflexivity.
Qed.

Lemma mgr_apply_reg (m : Manager) (op : mgr_op) :
  loop_start_ok op = true -> reg_ok m -> reg_ok (mgr_apply m op).
Proof.
  intros Hop H. destruct op as [name buf|name o|name]; simpl in *.
  - unfold addSound. destruct (addSound_blocked name (soundLibrary m)); exact H.
  - unfold play. destruct (lib_get name (soundLibrary m)) as [[b| |]|]; simpl; try exact H.
    unfold reg_ok in *.
    destruct (loop o), (Qltb (offset o) 0); simpl in *; try discriminate;
      try (apply reg_ok_fx; exact H).
    apply Forall_app; split; [apply reg_ok_fx; exact H|].
    constructor; [|constructor]. split; [reflexivity|]. simpl.
    apply node_started_in with (w := offset o).
    apply in_or_app; right. apply in_or_app; right. left; reflexivity.
  - rewrite (stopLoop_live name m H). unfold reg_ok; simpl.
    apply reg_ok_fx, Forall_filter_sub, H.
Qed.

Lemma mgr_run_reg (ops : list mgr_op) (m : Manager) :
  forallb loop_start_ok ops = true -> reg_ok m -> reg_ok (mgr_run m ops).
Proof.
  revert m; induction ops as [|op ops IH]; intros m Hops H; simpl in *; [exact H|].
  apply andb_prop in Hops as [H1 H2].
  apply IH; [exact H2|]. apply mgr_apply_reg; assumption.
Qed.

(** C10 (as the code has it). After any sequence of [addSound], [play] and
    [stopLoop] calls on a fresh manager, none of them a looping [play] with
    a negative [offset], every entry of the loop registry has its liveness
    flag [isPlaying] set: the registry never keeps a stopped loop. *)
Theorem loop_registry_all_live (ops : list mgr_op) :
  forallb loop_start_ok ops = true ->
  Forall (fun e => isPlaying e = true) (loops (mgr_run fresh_manager ops)).
Proof.
  intros H. apply reg_ok_live, (mgr_run_reg ops fresh_manager H). constructor.
Qed.

Lemma loop_registry_all_live_witness :
  forallb loop_start_ok
    [Op_addSound "a" 1; Op_play "a" opts_loop; Op_play "a" opts_loop;
     Op_stopLoop "a"; Op_play "a" opts_loop] = true
  /\ Forall (fun e => isPlaying e = true)
       (loops (mgr_run fresh_manager
                 [Op_addSound "a" 1; Op_play "a" opts_loop; Op_play "a" opts_loop;
                  Op_stopLoop "a"; Op_play "a" opts_loop])).
Proof.
  split; [reflexivity|]. apply loop_registry_all_live. reflexivity.
Defined.

(** C10 fails: [play(a, {loop: true})], then [play(a, {loop: true,
    offset: -1})], which registers its loop and throws [RangeError] from
    [start]; [stopLoop(a)] stops and flags the first loop, then throws
    [InvalidStateError] on the second, never-started node, before the
    compaction; after a further completed [play(a)] the registry still
    holds the stopped entry. *)
Lemma loop_registry_keeps_stopped_entry :
  let m1 := mgr_run fresh_manager [Op_addSound "a" 1; Op_play "a" opts_loop] in
  let m2 := fst (play "a" opts_loop_late m1) in
  let m3 := fst (stopLoop "a" m2) in
  snd (play "a" opts_loop_late m1) = Throw Exn_RangeError
  /\ snd (stopLoop "a" m2) = Throw Exn_InvalidStateError
  /\ snd (play "a" default_play_opts m3) = Ok 2%nat
  /\ loops (fst (play "a" default_play_opts m3))
     = [{| soundName := "a"; loopHandle := 0; isPlaying := false |};
        {| soundName := "a"; loopHandle := 1; isPlaying := true |}].
Proof. repeat split; reflexivity. Qed.

(** C7 (as the code has it). On a manager reached from a fresh one by calls
    none of which is a looping [play] with a negative [offset],
    [stopLoop(name)] returns without error, stops, in registry order,
    every loop registered under [name] (all of them when several share the
    name) and drops exactly those entries; when no loop of that name is
    registered (for instance after a non-looping [play]) it changes
    nothing; and a second call changes nothing more and raises no error. *)
Theorem stopLoop_stops_all_and_idempotent (ops : list mgr_op) (name : string) :
  forallb loop_start_ok ops = true ->
  let m := mgr_run fresh_manager ops in
  snd (stopLoop name m) = Ok tt
  /\ loops (fst (stopLoop name m))
     = filter (fun e => negb (String.eqb (soundName e) name)) (loops m)
  /\ fx (fst (stopLoop name m))
     = fx m ++ map (fun e => Fx_stop (loopHandle e))
                   (filter (fun e => String.eqb (soundName e) name) (loops m))
  /\ (existsb (fun e => String.eqb (soundName e) name) (loops m) = true
      \/ fst (stopLoop name m) = m)
  /\ stopLoop name (fst (stopLoop name m)) = (fst (stopLoop name m), Ok tt).
Proof.
  intros Hops m.
  assert (Hl : reg_ok m) by (apply mgr_run_reg; [exact Hops|constructor]).
  rewrite (stopLoop_live name m Hl); cbn [fst snd loops fx].
  split; [reflexivity|]. split; [reflexivity|]. split; [reflexivity|]. split.
  - destruct (existsb (fun e => String.eqb (soundName e) name) (loops m)) eqn:E;
      [left; reflexivity|right].
    apply manager_ext; simpl; [reflexivity| |reflexivity|].
    + apply (filter_none_true _ _ E).
    + rewrite (filter_none_false _ _ E). apply app_nil_r.
  - assert (Hl' : reg_ok (fst (stopLoop name m))).
    { rewrite (stopLoop_live name m Hl). unfold reg_ok; simpl.
      apply reg_ok_fx, Forall_filter_sub, Hl. }
    rewrite (stopLoop_live name m Hl) in Hl'. cbn [fst] in Hl'.
    rewrite (stopLoop_live name _ Hl'). cbn [soundLibrary loops next_node fx].
    f_equal. apply manager_ext; simpl; [reflexivity| |reflexivity|].
    + apply (filter_none_true (fun e => String.eqb (soundName e) name)
               _ (existsb_filter_neg _ _)).
    + rewrite (filter_none_false (fun e => String.eqb (soundName e) name)
                 _ (existsb_filter_neg _ _)).
      apply app_nil_r.
Qed.

Lemma stopLoop_stops_all_and_idempotent_witness :
  forallb loop_start_ok [Op_addSound "a" 1; Op_play "a" opts_loop] = true
  /\ (let m := mgr_run fresh_manager [Op_addSound "a" 1; Op_play "a" opts_loop] in
      snd (stopLoop "a" m) = Ok tt
      /\ loops (fst (stopLoop "a" m))
         = filter (fun e => negb (String.eqb (soundName e) "a")) (loops m)
      /\ fx (fst (stopLoop "a" m))
         = fx m ++ map (fun e => Fx_stop (loopHandle e))
                       (filter (fun e => String.eqb (soundName e) "a") (loops m))
      /\ (existsb (fun e => String.eqb (soundName e) "a") (loops m) = true
          \/ fst (stopLoop "a" m) = m)
      /\ stopLoop "a" (fst (stopLoop "a" m)) = (fst (stopLoop "a" m), Ok tt)).
Proof.
  split; [reflexivity|].
  apply (stopLoop_stops_all_and_idempotent [Op_addSound "a" 1; Op_play "a" opts_loop] "a").
  reflexivity.
Defined.

(** C7 fails for a loop whose [start] threw: [play(a, {loop: true,
    offset: -1})] registers the loop, then throws [RangeError]; each
    [stopLoop(a)] then throws [InvalidStateError] from [stop()] on the
    never-started node and leaves the live entry in the registry. *)
Lemma stopLoop_unstarted_loop_throws :
  let m := mgr_run fresh_manager [Op_addSound "a" 1; Op_play "a" opts_loop_late] in
  loops m = [{| soundName := "a"; loopHandle := 0; isPlaying := true |}]
  /\ stopLoop "a" m = (m, Throw Exn_InvalidStateError).
Proof. split; reflexivity. Qed.

(* ------------------------------------------------------------------ *)
(** ** play: missing names, the node chain, the start time *)

(** A name that is neither registered nor inherited (from
    [Object.prototype], or from [AudioBuffer.prototype] when a buffer was
    stored under ["__proto__"]) makes [play] throw ["Sound <name> not
    found"] and leaves the manager as it was (no node, no effect, no
    event). *)
Lemma play_unknown_not_found (name : string) (o : play_opts) (m : Manager) :
  own_lookup name (soundLibrary m) = None ->
  existsb (String.eqb name) object_prototype_keys = false ->
  own_lookup "__proto__" (soundLibrary m) = None
  \/ existsb (String.eqb name) (audioBuffer_getter_keys ++ audioBuffer_method_keys) = false ->
  play name o m
  = (m, Throw (Exn_Error (String.append "Sound " (String.append name " not found")))).
Proof.
  intros H1 H2 H3. unfold play, lib_get. rewrite H1, H2.
  destruct H3 as [H3|H3]; [rewrite H3; reflexivity|].
  rewrite existsb_app in H3. apply orb_false_iff in H3 as [G M].
  rewrite G, M. destruct (own_lookup "__proto__" (soundLibrary m)); reflexivity.
Qed.

Lemma play_unknown_not_found_witness :
  own_lookup "missing" (soundLibrary (addSound "__proto__" 1 fresh_manager)) = None
  /\ existsb (String.eqb "missing") object_prototype_keys = false
  /\ (own_lookup "__proto__" (soundLibrary (addSound "__proto__" 1 fresh_manager)) = None
      \/ existsb (String.eqb "missing")
           (audioBuffer_getter_keys ++ audioBuffer_method_keys) = false)
  /\ play "missing" default_play_opts (addSound "__proto__" 1 fresh_manager)
     = (addSound "__proto__" 1 fresh_manager,
        Throw (Exn_Error "Sound missing not found")).
Proof.
  split; [reflexivity|]. split; [reflexivity|]. split; [right; reflexivity|].
  apply (play_unknown_not_found "missing" default_play_opts
           (addSound "__proto__" 1 fresh_manager));
    [reflexivity|reflexivity|right; reflexivity].
Defined.

(** C2. [play("toString")] on a fresh manager: ["toString"] is not
    registered, but [name in this.soundLibrary] holds for it (inherited
    from [Object.prototype]), so no not-found error is thrown; a buffer
    source node is created and the assignment of the inherited function to
    [sampleSource.buffer] throws a [TypeError] instead. *)
Theorem play_inherited_name_type_error :
  play "toString" default_play_opts fresh_manager
  = ({| soundLibrary := []; loops := []; next_node := 1; fx := [] |},
     Throw (Exn_TypeError "Failed to set the 'buffer' property on 'AudioBufferSourceNode'")).
Proof. reflexivity. Qed.

Lemma play_graph_links (src : nat) (o : play_opts) :
  play_graph src o = links (stage_chain src o).
Proof.
  unfold play_graph, stage_chain.
  destruct (negb (Qeq_bool (volume o) 1)), (negb (Qeq_bool (panValue o) 0));
    reflexivity.
Qed.

(** C8 (as the code has it). For a registered name, [play] connects the
    source, a gain stage exactly when [volume != 1], a pan stage exactly
    when [panValue != 0], and the destination, each to the next present
    one; then calls [start(offset)] with [offset] unchanged, a time on the
    engine clock (not added to [getTime()]). For [offset >= 0] the node is
    started and [soundEffect] is sent; for [offset < 0] [start] throws
    [RangeError]: the connections (and a loop's registry entry) are made,
    but nothing is started and no event is sent. *)
Theorem play_chain_and_start (name : string) (o : play_opts) (m : Manager) (b : nat) :
  own_lookup name (soundLibrary m) = Some b ->
  play name o m
  = ({| soundLibrary := soundLibrary m;
        loops := if loop o
                 then loops m ++ [{| soundName := name; loopHandle := next_node m;
                                     isPlaying := true |}]
                 else loops m;
        next_node := S (next_node m);
        fx := fx m ++ (if callback o then [Fx_onended (next_node m)] else [])
                   ++ links (stage_chain (next_node m) o)
                   ++ (if Qltb (offset o) 0 then []
                       else [Fx_start (next_node m) (offset o);
                             Fx_soundEffect name (panValue o) (volume o) (loop o)]) |},
     if Qltb (offset o) 0 then Throw Exn_RangeError else Ok (next_node m)).
Proof.
  intros H. unfold play, lib_get. rewrite H, <- play_graph_links.
  destruct (Qltb (offset o) 0); cbn beta iota zeta;
    [rewrite app_nil_r|rewrite <- !app_assoc]; reflexivity.
Qed.

Lemma play_chain_and_start_witness :
  own_lookup "a" (soundLibrary (addSound "a" 7 fresh_manager)) = Some 7%nat
  /\ play "a" opts_half_left (addSound "a" 7 fresh_manager)
     = ({| soundLibrary := [("a", 7%nat)]; loops := []; next_node := 1;
           fx := [Fx_connect (N_source 0) (N_gain 0 (1 # 2));
                  Fx_connect (N_gain 0 (1 # 2)) (N_panner 0 (-1));
                  Fx_connect (N_panner 0 (-1)) N_destination;
                  Fx_start 0 3; Fx_soundEffect "a" (-1) (1 # 2) false] |},
        Ok 0%nat).
Proof.
  split; [reflexivity|].
  rewrite (play_chain_and_start "a" opts_half_left (addSound "a" 7 fresh_manager) 7)
    by reflexivity.
  reflexivity.
Defined.

(** C8 fails on its start time: with [offset = 2], [play] calls
    [start(2)]; on an engine clock at [getTime() = 10] that starts playback
    at 10 (2 is already past), not at [10 + 2]. *)
Lemma play_start_not_relative :
  play "a" opts_at_2 (addSound "a" 7 fresh_manager)
  = ({| soundLibrary := [("a", 7%nat)]; loops := []; next_node := 1;
        fx := [Fx_connect (N_source 0) N_destination; Fx_start 0 2;
               Fx_soundEffect "a" 0 1 false] |}, Ok 0%nat)
  /\ playback_begins 10 2 == 10
  /\ ~ (playback_begins 10 2 == 10 + 2).
Proof.
  split; [reflexivity|]. split.
  - vm_compute. reflexivity.
  - vm_compute. discriminate.
Qed.

(* ------------------------------------------------------------------ *)
(** ** The cue parser of speakWithSoundEffects *)

Lemma count_by_app (f : entry -> bool) (l1 l2 : list entry) :
  count_by f (l1 ++ l2) = (count_by f l1 + count_by f l2)%nat.
Proof. unfold count_by. rewrite filter_app, length_app. reflexivity. Qed.

Lemma flush_shape (vp : option string) (buffer : string) :
  let fl := if Nat.ltb 0 (String.length buffer) then [text_entry buffer vp] else [] in
  map item (filter is_sound fl) = []
  /\ (count_by is_text fl <= 1)%nat /\ count_by is_sound fl = 0%nat
  /\ Forall well_formed_entry fl.
Proof.
  simpl. destruct (Nat.ltb 0 (String.length buffer)) eqn:E; simpl.
  - repeat split; auto. constructor; [|constructor].
    right. split; [reflexivity|]. apply Nat.ltb_lt, E.
  - repeat split; auto.
Qed.

Lemma parse_tokens_shape (vp : option string) (tokens : list string) (buffer : string) :
  let q := parse_tokens vp tokens buffer in
  map item (filter is_sound q) = cue_names tokens
  /\ (count_by is_text q <= count_by is_sound q + 1)%nat
  /\ Forall well_formed_entry q.
Proof.
  revert buffer; induction tokens as [|tok rest IH]; intros buffer; simpl.
  - destruct (flush_shape vp buffer) as (A & B & C & D). simpl in *.
    repeat split; auto. lia.
  - destruct (cue_match tok) as [soundName|].
    + destruct (flush_shape vp buffer) as (A & B & C & D).
      destruct (IH EmptyString) as (A' & B' & D').
      set (fl := if Nat.ltb 0 (String.length buffer) then [text_entry buffer vp] else [])
        in *.
      repeat split.
      * rewrite filter_app, map_app, A. simpl. rewrite A'. reflexivity.
      * rewrite !count_by_app. unfold count_by at 2 4. simpl.
        fold (count_by is_text (parse_tokens vp rest EmptyString)).
        fold (count_by is_sound (parse_tokens vp rest EmptyString)). lia.
      * apply Forall_app; split; [exact D|].
        constructor; [left; reflexivity|exact D'].
    + apply IH.
Qed.

(** C3 (as the code has it). [speakWithSoundEffects] splits the string at
    single spaces; every token containing the cue pattern (anywhere in it)
    gives exactly one sound entry, named by the captured text, in token
    order; there are at most one more text entries than sound entries; and
    every entry is a sound entry or a text entry of non-zero length. *)
Theorem parse_cues_shape (vp : option string) (formattedText : string) :
  let q := parse_cues vp formattedText in
  map item (filter is_sound q) = cue_names (split_sp formattedText)
  /\ (count_by is_text q <= count_by is_sound q + 1)%nat
  /\ Forall well_formed_entry q.
Proof. apply parse_tokens_shape. Qed.

(** C3 fails on a string with two cue markers inside one token: it gives a
    single sound entry, whose name is everything between the first
    opening and the last closing braces. *)
Lemma parse_two_markers_one_token :
  parse_cues None "{{a}}{{b}}" = [sound_entry "a}}{{b"]
  /\ count_by is_sound (parse_cues None "{{a}}{{b}}") = 1%nat.
Proof. split; reflexivity. Qed.

(** C4 fails on the exact text contents: every plain token is appended as
    [" " + token], so both phrases start with a space. *)
Lemma parse_you_win_not_trimmed :
  parse_cues None "You win {{win}} great job"
  <> [text_entry "You win" None; sound_entry "win"; text_entry "great job" None].
Proof. vm_compute. discriminate. Qed.

Lemma parse_tokens_cue (vp : option string) (pre post : list string) (t x buffer : string) :
  cue_match t = Some x ->
  parse_tokens vp (pre ++ t :: post) buffer
  = parse_tokens vp pre buffer ++ sound_entry x :: parse_tokens vp post EmptyString.
Proof.
  intros H. revert buffer; induction pre as [|tok pre IH]; intros buffer; simpl.
  - rewrite H. reflexivity.
  - destruct (cue_match tok); [|apply IH].
    rewrite IH, <- app_assoc. reflexivity.
Qed.

(** C5 fails: with "b" registered, [speakWithSoundEffects("a{{b}}c")]
    throws nothing and starts playing sound "b" at once; and "{{name" is
    queued as the phrase " {{name". *)
Lemma embedded_marker_plays :
  snd (speakWithSoundEffects "a{{b}}c" None world_with_b) = None
  /\ hd_error (w_log (fst (speakWithSoundEffects "a{{b}}c" None world_with_b)))
     = Some (Ev_dispatch 0 (sound_entry "b") 0)
  /\ parse_cues None "{{name" = [text_entry " {{name" None].
Proof. split; [|split]; reflexivity. Qed.

(* ------------------------------------------------------------------ *)
(** ** speakWithSoundEffects does not touch earlier sequences *)

Lemma doNext_frame (id : nat) (w : World) :
  (w_seqs (fst (doNext id w)) = w_seqs w
   \/ exists s', w_seqs (fst (doNext id w)) = set_nth id s' (w_seqs w))
  /\ (w_pending (fst (doNext id w)) = w_pending w
      \/ w_pending (fst (doNext id w)) = (id, K_callback) :: w_pending w)
  /\ w_queue (fst (doNext id w)) = w_queue w
  /\ w_time (fst (doNext id w)) = w_time w.
Proof.
  unfold doNext.
  destruct (nth_error (w_seqs w) id) as [s|]; [|simpl; auto].
  destruct (sq_queue s) as [|firstItem rest]; [simpl; auto|].
  destruct (sq_isPlaying s); [|simpl; auto].
  destruct (String.eqb (mediaType firstItem) "text").
  - destruct (prefs firstItem); simpl; split; eauto.
  - destruct (String.eqb (mediaType firstItem) "sound").
    + destruct (play _ _ _) as [m' [r|x]]; simpl; split; eauto.
    + simpl; split; eauto.
Qed.

Lemma firstn_set_nth_last {A} (l : list A) (s x : A) :
  firstn (List.length l) (set_nth (List.length l) x (l ++ [s])) = l.
Proof. induction l as [|a l IH]; simpl; [reflexivity|]. rewrite IH. reflexivity. Qed.

Lemma firstn_app_last {A} (l : list A) (s : A) :
  firstn (List.length l) (l ++ [s]) = l.
Proof. induction l as [|a l IH]; simpl; [reflexivity|]. rewrite IH. reflexivity. Qed.

(** C1 (as the code has it). [speakWithSoundEffects] does not cancel the
    queue that was current: every earlier sequence keeps its state, every
    pending callback or timer stays pending (at most the new sequence's
    first callback is added), and only [this.queue] is pointed at the new
    sequence. *)
Theorem speakWithSoundEffects_keeps_old_queues
  (formattedText : string) (vp : option string) (w : World) :
  let w' := fst (speakWithSoundEffects formattedText vp w) in
  firstn (List.length (w_seqs w)) (w_seqs w') = w_seqs w
  /\ (w_pending w' = w_pending w
      \/ w_pending w' = (List.length (w_seqs w), K_callback) :: w_pending w)
  /\ (w_queue w' = w_queue w \/ w_queue w' = Some (List.length (w_seqs w))).
Proof.
  unfold speakWithSoundEffects. cbv zeta.
  set (w1 := {| w_mgr := w_mgr w; w_time := w_time w; w_seqs := _;
                w_queue := w_queue w; w_pending := w_pending w; w_log := _ |}).
  destruct (doNext_frame (List.length (w_seqs w)) w1) as (S & P & Qu & _).
  destruct (doNext (List.length (w_seqs w)) w1) as [w2 [x|]] eqn:E; simpl in *.
  - split; [|split].
    + destruct S as [S|[s' S]]; rewrite S; simpl;
        [apply firstn_app_last|apply firstn_set_nth_last].
    + exact P.
    + left; exact Qu.
  - split; [|split].
    + destruct S as [S|[s' S]]; rewrite S; simpl;
        [apply firstn_app_last|apply firstn_set_nth_last].
    + exact P.
    + right; reflexivity.
Qed.

(** C1 fails: the first narration "x {{a}}" has spoken " x" and waits out
    its spacing when "y" is narrated; [this.queue] then names the new
    sequence, yet the old sequence's timer is still pending and, when it
    fires, plays "a" from the old queue. *)
Lemma old_queue_keeps_playing :
  match run init_world trace_two_narrations with
  | Some w1 =>
      w_queue w1 = Some 1%nat
      /\ nth_error (w_pending w1) 1 = Some (0%nat, K_timer 100)
      /\ match step w1 (L_fire 1) with
         | Some w2 => hd_error (w_log w2) = Some (Ev_dispatch 0 (sound_entry "a") 100)
         | None => False
         end
  | None => False
  end.
Proof. vm_compute. repeat split. Qed.

(* ------------------------------------------------------------------ *)
(** ** Canceling during the spacing delay *)

(** C6. Narrate "hello {{a}}"; " hello" completes, so the sequence sleeps
    100 ms before "a"; [cancel()] now marks it inactive and empties it, but
    the timer stays pending, and when it fires [doNext] finds the queue
    empty and calls [this.shutdown()], which does not exist: a [TypeError]
    is thrown. *)
Theorem cancel_in_spacing_throws :
  match run init_world trace_cancel_in_spacing with
  | Some w1 =>
      nth_error (w_seqs w1) 0
      = Some {| sq_queue := []; sq_spacing := 100; sq_isPlaying := false |}
      /\ w_pending w1 = [(0%nat, K_timer 100)]
      /\ match run w1 [L_wait 100; L_fire 0] with
         | Some w2 => hd_error (w_log w2) = Some (Ev_throw 0 shutdown_exn 100)
                      /\ w_pending w2 = []
         | None => False
         end
  | None => False
  end.
Proof. vm_compute. repeat split. Qed.

(* ------------------------------------------------------------------ *)
(** ** The ordering invariant of sequences *)

Lemma length_set_nth {A} (n : nat) (x : A) (l : list A) :
  List.length (set_nth n x l) = List.length l.
Proof.
  revert n; induction l as [|a l IH]; intros [|n]; simpl; auto.
Qed.

Lemma nth_error_set_nth_eq {A} (n : nat) (x y : A) (l : list A) :
  nth_error l n = Some y -> nth_error (set_nth n x l) n = Some x.
Proof.
  revert n; induction l as [|a l IH]; intros [|n]; simpl; try discriminate; auto.
Qed.

Lemma nth_error_set_nth_ne {A} (n j : nat) (x : A) (l : list A) :
  j <> n -> nth_error (set_nth n x l) j = nth_error l j.
Proof.
  revert n j; induction l as [|a l IH]; intros [|n] [|j] H; simpl; auto;
    try congruence.
Qed.

Lemma Forall_set_nth {A} (P : A -> Prop) (n : nat) (x : A) (l : list A) :
  Forall P l -> P x -> Forall P (set_nth n x l).
Proof.
  intros Hl Hx; revert n; induction Hl as [|a l Ha Hl IH]; intros [|n]; simpl;
    constructor; auto.
Qed.

Lemma pend_cons (j i : nat) (k : cont) (ps : list (nat * cont)) :
  pend j ((i, k) :: ps) = if Nat.eqb i j then k :: pend j ps else pend j ps.
Proof. unfold pend; simpl. destruct (Nat.eqb i j); reflexivity. Qed.

Lemma pend_remove_nth (ps : list (nat * cont)) (n i j : nat) (k : cont) :
  nth_error ps n = Some (i, k) ->
  (j <> i -> pend j (remove_nth n ps) = pend j ps)
  /\ (j = i -> exists l1 l2, pend j ps = l1 ++ k :: l2
                             /\ pend j (remove_nth n ps) = l1 ++ l2).
Proof.
  revert n; induction ps as [|[i' k'] ps IH]; intros [|n] H; simpl in H;
    try discriminate.
  - injection H as E1 E2. subst i' k'. simpl remove_nth. rewrite pend_cons. split.
    + intros Hne. apply Nat.eqb_neq in Hne. rewrite Nat.eqb_sym, Hne. reflexivity.
    + intros ->. rewrite Nat.eqb_refl. exists [], (pend i ps). split; reflexivity.
  - destruct (IH n H) as [A B]. simpl remove_nth. rewrite !pend_cons. split.
    + intros Hne. rewrite (A Hne). reflexivity.
    + intros Hj. destruct (B Hj) as (l1 & l2 & E1 & E2).
      destruct (Nat.eqb i' j).
      * exists (k' :: l1), l2. rewrite E1, E2. split; reflexivity.
      * exists l1, l2. split; assumption.
Qed.

Lemma nth_error_skipn_cons {A} (k : nat) (l rest : list A) (e : A) :
  skipn k l = e :: rest -> nth_error l k = Some e /\ skipn (S k) l = rest.
Proof.
  revert l; induction k as [|k IH]; intros [|a l] H; simpl in *; try discriminate.
  - injection H as -> ->. split; reflexivity.
  - apply IH, H.
Qed.

(** The two ways [doNext] can go: an exception and nothing handed over,
    or the head item handed to [speak] or [play] with its callback
    pending. *)
Lemma doNext_cases (id : nat) (w : World) (s : Seq) :
  nth_error (w_seqs w) id = Some s ->
  let w' := fst (doNext id w) in
  w_time w' = w_time w /\ w_queue w' = w_queue w
  /\ (forall j, j <> id -> nth_error (w_seqs w') j = nth_error (w_seqs w) j)
  /\ List.length (w_seqs w') = List.length (w_seqs w)
  /\ (exists s', nth_error (w_seqs w') id = Some s' /\ sq_spacing s' = sq_spacing s)
  /\ ((w_pending w' = w_pending w
       /\ exists x, w_log w' = Ev_throw id x (w_time w) :: w_log w)
      \/ (exists e rest, sq_queue s = e :: rest
          /\ w_pending w' = (id, K_callback) :: w_pending w
          /\ w_log w' = Ev_dispatch id e (w_time w) :: w_log w
          /\ nth_error (w_seqs w') id
             = Some {| sq_queue := rest; sq_spacing := sq_spacing s;
                       sq_isPlaying := sq_isPlaying s |})).
Proof.
  intros Hs. unfold doNext. rewrite Hs.
  assert (Hset : forall s1 : Seq,
    nth_error (set_nth id s1 (w_seqs w)) id = Some s1
    /\ (forall j, j <> id -> nth_error (set_nth id s1 (w_seqs w)) j = nth_error (w_seqs w) j)
    /\ List.length (set_nth id s1 (w_seqs w)) = List.length (w_seqs w)).
  { intros s1. split; [apply (nth_error_set_nth_eq _ _ _ _ Hs)|].
    split; [intros j Hj; apply nth_error_set_nth_ne, Hj|apply length_set_nth]. }
  destruct (sq_queue s) as [|e rest] eqn:Q.
  { simpl. repeat split; auto. - exists s; auto. - left; split; eauto. }
  destruct (sq_isPlaying s) eqn:P.
  2:{ simpl. repeat split; auto. - exists s; auto. - left; split; eauto. }
  set (s1 := {| sq_queue := rest; sq_spacing := sq_spacing s; sq_isPlaying := true |}).
  destruct (Hset s1) as (E1 & E2 & E3).
  destruct (String.eqb (mediaType e) "text").
  - destruct (prefs e) as [p|]; simpl; repeat split; auto;
      try (exists s1; split; [exact E1|reflexivity]).
    + right. exists e, rest. repeat split; auto.
    + left. split; eauto.
  - destruct (String.eqb (mediaType e) "sound").
    + destruct (play _ _ _) as [m' [r|x]]; simpl; repeat split; auto;
        try (exists s1; split; [exact E1|reflexivity]).
      * right. exists e, rest. repeat split; auto.
      * left. split; eauto.
    + simpl; repeat split; auto; try (exists s1; split; [exact E1|reflexivity]).
      left. split; eauto.
Qed.

Lemma proj_cons_other (j : nat) (e : ev) (log : list ev) :
  ev_id e <> j -> proj j (e :: log) = proj j log.
Proof.
  intros H. apply Nat.eqb_neq in H. destruct e; simpl in *; try rewrite H; reflexivity.
Qed.

Lemma proj_fresh (j : nat) (log : list ev) :
  (forall e, In e log -> (ev_id e < j)%nat) -> proj j log = [].
Proof.
  induction log as [|e log IH]; intros H; [reflexivity|].
  rewrite proj_cons_other.
  - apply IH. intros e' He'. apply H. right; exact He'.
  - specialize (H e (or_introl eq_refl)). lia.
Qed.

Lemma pend_fresh (j : nat) (ps : list (nat * cont)) :
  (forall p, In p ps -> (fst p < j)%nat) -> pend j ps = [].
Proof.
  induction ps as [|[i k] ps IH]; intros H; [reflexivity|].
  rewrite pend_cons.
  assert (Hi : (i < j)%nat) by (apply (H (i, k)); left; reflexivity).
  replace (Nat.eqb i j) with false by (symmetry; apply Nat.eqb_neq; lia).
  apply IH. intros p Hp. apply H. right; exact Hp.
Qed.

Lemma pend_cons_other (j i : nat) (k : cont) (ps : list (nat * cont)) :
  i <> j -> pend j ((i, k) :: ps) = pend j ps.
Proof.
  intros H. rewrite pend_cons. apply Nat.eqb_neq in H. rewrite H. reflexivity.
Qed.

Lemma pend_cons_same (i : nat) (k : cont) (ps : list (nat * cont)) :
  pend i ((i, k) :: ps) = k :: pend i ps.
Proof. rewrite pend_cons, Nat.eqb_refl. reflexivity. Qed.

Lemma seq_ok_frame (w w' : World) (j : nat) (orig : list entry) :
  seq_ok w j orig ->
  (w_time w <= w_time w')%Z ->
  proj j (w_log w') = proj j (w_log w) ->
  pend j (w_pending w') = pend j (w_pending w) ->
  nth_error (w_seqs w') j = nth_error (w_seqs w) j ->
  seq_ok w' j orig.
Proof.
  intros (s & ph & Hs & Hh & Hp) Ht Hl Hk Hn.
  exists s, ph. rewrite Hn, Hl, Hk. split; [exact Hs|]. split; [exact Hh|].
  destruct ph as [k last|k e t]; simpl in *; [exact Hp|].
  destruct Hp as (A & B & C). split; [exact A|]. split; [lia|exact C].
Qed.

(** [doNext] on a sequence that is not in flight and has no continuation
    pending keeps its history well ordered. *)
Lemma doNext_ok (w : World) (id : nat) (s : Seq) (orig : list entry)
  (k : nat) (last : option Z) :
  nth_error (w_seqs w) id = Some s ->
  hist 100 orig (proj id (w_log w)) (Ph_done k last) ->
  pend id (w_pending w) = [] ->
  (sq_queue s = skipn k orig \/ sq_queue s = []) ->
  (forall c, last = Some c -> (c + 100 <= w_time w)%Z) ->
  seq_ok (fst (doNext id w)) id orig.
Proof.
  intros Hs Hh Hp Hq Hl.
  destruct (doNext_cases id w s Hs) as (Ht & _ & _ & _ & (s' & Hs' & _) & C).
  destruct C as [(Pe & x & Lg) | (e & rest & Qe & Pe & Lg & Hs'')].
  - exists s', (Ph_done k last). rewrite Lg, Pe. split; [exact Hs'|].
    split; [exact Hh|]. left; exact Hp.
  - assert (Hsk : sq_queue s = skipn k orig) by (destruct Hq; congruence).
    rewrite Qe in Hsk. symmetry in Hsk.
    destruct (nth_error_skipn_cons k orig rest e Hsk) as [Hn Hr].
    exists {| sq_queue := rest; sq_spacing := sq_spacing s; sq_isPlaying := sq_isPlaying s |},
           (Ph_flight k e (w_time w)).
    rewrite Lg, Pe, Ht. split; [exact Hs''|]. split.
    + simpl. rewrite Nat.eqb_refl. apply hist_disp with (last := last); assumption.
    + simpl. rewrite pend_cons_same, Hp. split; [reflexivity|]. split; [lia|].
      left; symmetry; exact Hr.
Qed.

Lemma doNext_other (w : World) (id j : nat) (s : Seq) (orig : list entry) :
  nth_error (w_seqs w) id = Some s -> j <> id ->
  seq_ok w j orig -> seq_ok (fst (doNext id w)) j orig.
Proof.
  intros Hs Hj Hok.
  destruct (doNext_cases id w s Hs) as (Ht & _ & Hn & _ & _ & C).
  apply (seq_ok_frame w); [exact Hok|lia| | |apply Hn, Hj].
  - destruct C as [(_ & x & Lg) | (e & rest & _ & _ & Lg & _)]; rewrite Lg;
      apply proj_cons_other; simpl; lia.
  - destruct C as [(Pe & _) | (e & rest & _ & Pe & _)]; rewrite Pe;
      [reflexivity|apply pend_cons_other; lia].
Qed.

(** The bookkeeping parts of the invariant across [doNext]. *)
Lemma doNext_base (w : World) (id : nat) (s : Seq) :
  nth_error (w_seqs w) id = Some s ->
  Forall (fun s => sq_spacing s = 100%Z) (w_seqs w) ->
  (forall e, In e (w_log w) -> (ev_id e < List.length (w_seqs w))%nat) ->
  (forall p, In p (w_pending w) -> (fst p < List.length (w_seqs w))%nat) ->
  let w' := fst (doNext id w) in
  Forall (fun s => sq_spacing s = 100%Z) (w_seqs w')
  /\ (forall e, In e (w_log w') -> (ev_id e < List.length (w_seqs w'))%nat)
  /\ (forall p, In p (w_pending w') -> (fst p < List.length (w_seqs w'))%nat)
  /\ (forall j orig t, In (Ev_enqueue j orig t) (w_log w') ->
                       In (Ev_enqueue j orig t) (w_log w))
  /\ List.length (w_seqs w') = List.length (w_seqs w)
  /\ w_time w' = w_time w
  /\ (forall e, In e (w_log w) -> In e (w_log w')).
Proof.
  intros Hs HS HL HP w'.
  assert (Hid : (id < List.length (w_seqs w))%nat)
    by (apply nth_error_Some; congruence).
  destruct (doNext_cases id w s Hs) as (Ht & _ & Hn & Hlen & (s' & Hs' & Hsp) & C).
  fold w' in Ht, Hn, Hlen, Hs', C.
  split; [|split; [|split; [|split]]]; try rewrite Hlen.
  - apply Forall_forall. intros x Hx.
    apply In_nth_error in Hx as [j Hj].
    destruct (Nat.eq_dec j id) as [->|Hne].
    + rewrite Hs' in Hj. injection Hj as <-. rewrite Hsp.
      apply (proj1 (Forall_forall _ _) HS), nth_error_In with id, Hs.
    + rewrite Hn in Hj by exact Hne.
      apply (proj1 (Forall_forall _ _) HS), nth_error_In with j, Hj.
  - destruct C as [(_ & x & Lg) | (e & rest & _ & _ & Lg & _)]; rewrite Lg;
      intros e' [<-|He']; simpl; auto.
  - destruct C as [(Pe & _) | (e & rest & _ & Pe & _)]; rewrite Pe; auto.
    intros p [<-|Hp]; simpl; auto.
  - destruct C as [(_ & x & Lg) | (e & rest & _ & _ & Lg & _)]; rewrite Lg;
      intros j orig t [Heq|Hin]; try discriminate; exact Hin.
  - split; [reflexivity|split; [exact Ht|]].
    destruct C as [(_ & x & Lg) | (e & rest & _ & _ & Lg & _)]; rewrite Lg;
      intros e' He'; right; exact He'.
Qed.

Lemma Inv_frame_all (w w' : World) :
  Inv w -> w_seqs w' = w_seqs w -> w_log w' = w_log w ->
  w_pending w' = w_pending w -> (w_time w <= w_time w')%Z -> Inv w'.
Proof.
  intros (HS & HL & HP & HE & HO) Es El Ep Et.
  unfold Inv. rewrite Es, El, Ep.
  split; [exact HS|]. split; [exact HL|]. split; [exact HP|]. split; [exact HE|].
  intros j orig t Hin. apply (seq_ok_frame w); [exact (HO j orig t Hin)|exact Et| | |].
  - rewrite El; reflexivity.
  - rewrite Ep; reflexivity.
  - rewrite Es; reflexivity.
Qed.

Lemma spacing_of (w : World) (id : nat) (s : Seq) :
  Forall (fun s => sq_spacing s = 100%Z) (w_seqs w) ->
  nth_error (w_seqs w) id = Some s -> sq_spacing s = 100%Z.
Proof.
  intros HS Hs. apply (proj1 (Forall_forall _ _) HS). apply nth_error_In with id, Hs.
Qed.

Lemma Inv_cancel (w : World) (id : nat) (s : Seq) :
  Inv w -> nth_error (w_seqs w) id = Some s -> Inv (set_seq id (cancel_seq s) w).
Proof.
  intros (HS & HL & HP & HE & HO) Hs.
  unfold Inv, set_seq; simpl. rewrite length_set_nth.
  split; [apply Forall_set_nth; [exact HS|simpl; apply (spacing_of w id s HS Hs)]|].
  split; [exact HL|]. split; [exact HP|]. split; [exact HE|].
  intros j orig t Hin.
  destruct (Nat.eq_dec j id) as [->|Hne].
  - destruct (HO id orig t Hin) as (s0 & ph & Hs0 & Hh & Hp).
    rewrite Hs in Hs0. injection Hs0 as <-.
    exists (cancel_seq s), ph. split; [apply (nth_error_set_nth_eq _ _ _ _ Hs)|].
    split; [exact Hh|].
    destruct ph as [k last|k e t']; simpl in *.
    + destruct Hp as [Hp|(c & Hc & Hp & _)]; [left; exact Hp|].
      right. exists c. split; [exact Hc|]. split; [exact Hp|]. right; reflexivity.
    + destruct Hp as (A & B & _). split; [exact A|]. split; [exact B|].
      right; reflexivity.
  - apply (seq_ok_frame w); [apply (HO j orig t Hin)|simpl; lia|reflexivity|reflexivity|].
    simpl. apply nth_error_set_nth_ne, Hne.
Qed.

(** The continuation the host runs is the only one of its sequence. *)
Lemma seq_ok_take (w : World) (n id : nat) (k : cont) (orig : list entry) :
  seq_ok w id orig -> nth_error (w_pending w) n = Some (id, k) ->
  exists s ph, nth_error (w_seqs w) id = Some s
               /\ hist 100 orig (proj id (w_log w)) ph
               /\ phase_ok ph s orig [k] (w_time w)
               /\ pend id (remove_nth n (w_pending w)) = [].
Proof.
  intros (s & ph & Hs & Hh & Hp) Hn.
  destruct (pend_remove_nth (w_pending w) n id id k Hn) as [_ B].
  destruct (B eq_refl) as (l1 & l2 & E1 & E2).
  assert (Hone : forall x, pend id (w_pending w) = [x] -> x = k /\ l1 = [] /\ l2 = []).
  { intros x Hx. rewrite E1 in Hx.
    destruct l1 as [|y l1]; simpl in Hx.
    - injection Hx as -> ->. auto.
    - injection Hx as _ Hx. destruct l1; discriminate. }
  exists s, ph. split; [exact Hs|]. split; [exact Hh|].
  destruct ph as [kk last|kk e t]; simpl in Hp.
  - destruct Hp as [Hp|(c & Hc & Hp & Hq)].
    + rewrite E1 in Hp. destruct l1; discriminate.
    + destruct (Hone _ Hp) as (<- & -> & ->). split; [|exact E2].
      simpl. right. exists c. split; [exact Hc|]. split; [reflexivity|exact Hq].
  - destruct Hp as (Hp & Ht & Hq).
    destruct (Hone _ Hp) as (<- & -> & ->). split; [|exact E2].
    simpl. split; [reflexivity|]. split; assumption.
Qed.

Lemma In_remove_nth {A} (n : nat) (x : A) (l : list A) :
  In x (remove_nth n l) -> In x l.
Proof.
  revert n; induction l as [|a l IH]; intros [|n]; simpl; intuition eauto.
Qed.

Lemma seq_of_pending (w : World) (n id : nat) (k : cont) :
  Inv w -> nth_error (w_pending w) n = Some (id, k) ->
  exists s, nth_error (w_seqs w) id = Some s.
Proof.
  intros (_ & _ & HP & _) Hn.
  apply nth_error_In, HP in Hn. simpl in Hn.
  destruct (nth_error (w_seqs w) id) eqn:E; [eauto|].
  apply nth_error_None in E. lia.
Qed.

(** [doNext] on a sequence with nothing pending, not in flight. *)
Lemma Inv_doNext_idle (w : World) (id : nat) (s : Seq) :
  Inv w -> nth_error (w_seqs w) id = Some s -> pend id (w_pending w) = [] ->
  (forall orig t, In (Ev_enqueue id orig t) (w_log w) ->
     exists k last, hist 100 orig (proj id (w_log w)) (Ph_done k last)
                    /\ (sq_queue s = skipn k orig \/ sq_queue s = [])
                    /\ (forall c, last = Some c -> (c + 100 <= w_time w)%Z)) ->
  Inv (fst (doNext id w)).
Proof.
  intros (HS & HL & HP & HE & HO) Hs Hp Hid.
  destruct (doNext_base w id s Hs HS HL HP) as (S' & L' & P' & En & Len & _ & Ext).
  split; [exact S'|]. split; [exact L'|]. split; [exact P'|]. split.
  - intros j Hj. rewrite Len in Hj. destruct (HE j Hj) as (orig & t & Hin).
    exists orig, t. apply Ext, Hin.
  - intros j orig t Hin. apply En in Hin.
    destruct (Nat.eq_dec j id) as [->|Hne].
    + destruct (Hid orig t Hin) as (k & last & Hh & Hq & Hl).
      apply (doNext_ok w id s orig k last); assumption.
    + apply (doNext_other w id j s orig Hs Hne), (HO j orig t Hin).
Qed.

Lemma Inv_fire_timer (w : World) (n id : nat) (due : Z) :
  Inv w -> nth_error (w_pending w) n = Some (id, K_timer due) ->
  (due <= w_time w)%Z ->
  Inv (fst (doNext id (remove_pending n w))).
Proof.
  intros HI Hn Hdue.
  destruct (seq_of_pending w n id _ HI Hn) as [s Hs].
  pose proof HI as (HS & HL & HP & HE & HO).
  assert (Hw1 : Inv (remove_pending n w)).
  { split; [exact HS|]. split; [exact HL|].
    split; [intros p Hp; apply HP, (In_remove_nth n), Hp|]. split; [exact HE|].
    intros j orig t Hin. simpl in Hin.
    destruct (Nat.eq_dec j id) as [->|Hne].
    - destruct (seq_ok_take w n id _ orig (HO id orig t Hin) Hn)
        as (s0 & ph & Hs0 & Hh & Hp & Hr).
      exists s0, ph. simpl. split; [exact Hs0|]. split; [exact Hh|]. rewrite Hr.
      destruct ph as [k last|k e t']; simpl in Hp |- *; [left; reflexivity|].
      destruct Hp as [Hp _]; discriminate.
    - apply (seq_ok_frame w); [apply (HO j orig t Hin)|simpl; lia|reflexivity| |reflexivity].
      simpl. apply (proj1 (pend_remove_nth _ n id j _ Hn)), Hne. }
  assert (Hid : (id < List.length (w_seqs w))%nat)
    by (apply nth_error_Some; congruence).
  destruct (HE id Hid) as (orig0 & t0 & Hin0).
  apply (Inv_doNext_idle _ id s Hw1); [exact Hs| |].
  - destruct (seq_ok_take w n id _ orig0 (HO id orig0 t0 Hin0) Hn) as (_ & _ & _ & _ & _ & Hr).
    exact Hr.
  - intros orig t Hin. simpl in Hin.
    destruct (seq_ok_take w n id _ orig (HO id orig t Hin) Hn)
      as (s0 & ph & Hs0 & Hh & Hp & _).
    rewrite Hs in Hs0. injection Hs0 as <-.
    destruct ph as [k last|k e t']; simpl in Hp.
    + destruct Hp as [Hp|(c & Hc & Hp & Hq)]; [discriminate|].
      injection Hp as Hp. exists k, last. split; [exact Hh|]. split; [exact Hq|].
      intros c' Hc'. rewrite Hc in Hc'. injection Hc' as <-. simpl. lia.
    + destruct Hp as [Hp _]; discriminate.
Qed.

Lemma Inv_fire_callback (w : World) (n id : nat) :
  Inv w -> nth_error (w_pending w) n = Some (id, K_callback) ->
  Inv (seq_callback id (log_ev (Ev_complete id (w_time w)) (remove_pending n w))).
Proof.
  intros HI Hn.
  destruct (seq_of_pending w n id _ HI Hn) as [s Hs].
  pose proof HI as (HS & HL & HP & HE & HO).
  assert (Hid : (id < List.length (w_seqs w))%nat)
    by (apply nth_error_Some; congruence).
  assert (Hsp : sq_spacing s = 100%Z) by exact (spacing_of w id s HS Hs).
  (* the sequence [id] was in flight *)
  assert (Hfl : forall orig t, In (Ev_enqueue id orig t) (w_log w) ->
    exists k e t', hist 100 orig (proj id (w_log w)) (Ph_flight k e t')
                   /\ (t' <= w_time w)%Z
                   /\ (sq_queue s = skipn (S k) orig \/ sq_queue s = [])).
  { intros orig t Hin.
    destruct (seq_ok_take w n id _ orig (HO id orig t Hin) Hn)
      as (s0 & ph & Hs0 & Hh & Hp & _).
    rewrite Hs in Hs0. injection Hs0 as <-.
    destruct ph as [k last|k e t']; simpl in Hp.
    - destruct Hp as [Hp|(c & _ & Hp & _)]; discriminate.
    - destruct Hp as (_ & Ht & Hq). exists k, e, t'. auto. }
  assert (Hr : pend id (remove_nth n (w_pending w)) = []).
  { destruct (HE id Hid) as (orig0 & t0 & Hin0).
    destruct (seq_ok_take w n id _ orig0 (HO id orig0 t0 Hin0) Hn)
      as (_ & _ & _ & _ & _ & Hr). exact Hr. }
  assert (Hoth : forall j orig t, j <> id -> In (Ev_enqueue j orig t) (w_log w) ->
    seq_ok (log_ev (Ev_complete id (w_time w)) (remove_pending n w)) j orig).
  { intros j orig t Hne Hin.
    apply (seq_ok_frame w); [apply (HO j orig t Hin)|simpl; lia| | |reflexivity].
    - apply (proj_cons_other j (Ev_complete id (w_time w))). simpl. lia.
    - simpl. apply (proj1 (pend_remove_nth _ n id j _ Hn)), Hne. }
  unfold seq_callback. simpl w_seqs. rewrite Hs.
  destruct (sq_queue s) as [|x r] eqn:Q.
  - (* the queue is drained: [cancel()] *)
    unfold Inv, set_seq; simpl. rewrite length_set_nth.
    split; [apply Forall_set_nth; [exact HS|exact Hsp]|].
    split; [intros e [<-|He]; [exact Hid|apply HL, He]|].
    split; [intros p Hp; apply HP, (In_remove_nth n), Hp|].
    split; [intros j Hj; destruct (HE j Hj) as (o & t & Hin); exists o, t; right; exact Hin|].
    intros j orig t [Heq|Hin]; [discriminate|].
    destruct (Nat.eq_dec j id) as [->|Hne].
    + destruct (Hfl orig t Hin) as (k & e & t' & Hh & Ht & _).
      exists (cancel_seq s), (Ph_done (S k) (Some (w_time w))).
      split; [apply (nth_error_set_nth_eq _ _ _ _ Hs)|]. split.
      * simpl. rewrite Nat.eqb_refl. apply hist_done with (e := e) (t := t'); assumption.
      * left. exact Hr.
    + apply (seq_ok_frame _ _ j orig (Hoth j orig t Hne Hin)); simpl;
        [lia|reflexivity|reflexivity|apply nth_error_set_nth_ne, Hne].
  - (* more to play: [sleep(spacing).then(doNext)] *)
    unfold Inv, push_pending; cbn -[pend proj].
    split; [exact HS|].
    split; [intros e [<-|He]; [exact Hid|apply HL, He]|].
    split; [intros p [<-|Hp]; [exact Hid|apply HP, (In_remove_nth n), Hp]|].
    split; [intros j Hj; destruct (HE j Hj) as (o & t & Hin); exists o, t; right; exact Hin|].
    intros j orig t [Heq|Hin]; [discriminate|].
    destruct (Nat.eq_dec j id) as [->|Hne].
    + destruct (Hfl orig t Hin) as (k & e & t' & Hh & Ht & Hq).
      exists s, (Ph_done (S k) (Some (w_time w))).
      split; [exact Hs|]. split.
      * simpl. rewrite Nat.eqb_refl. apply hist_done with (e := e) (t := t'); assumption.
      * right. exists (w_time w). split; [reflexivity|].
        cbn [w_pending]. rewrite pend_cons_same, Hr, Hsp. split; [reflexivity|].
        left. destruct Hq as [Hq|Hq]; [rewrite Q; exact Hq|discriminate].
    + apply (seq_ok_frame _ _ j orig (Hoth j orig t Hne Hin)); simpl;
        [lia|reflexivity| |reflexivity].
      apply pend_cons_other. lia.
Qed.

Lemma Inv_speak (w : World) (formattedText : string) (vp : option string) :
  Inv w -> Inv (fst (speakWithSoundEffects formattedText vp w)).
Proof.
  intros (HS & HL & HP & HE & HO).
  unfold speakWithSoundEffects. cbv zeta.
  set (len := List.length (w_seqs w)).
  set (items := parse_cues vp formattedText).
  set (s := {| sq_queue := items; sq_spacing := 100; sq_isPlaying := true |}).
  set (w1 := {| w_mgr := w_mgr w; w_time := w_time w; w_seqs := w_seqs w ++ [s];
                w_queue := w_queue w; w_pending := w_pending w;
                w_log := Ev_enqueue len items (w_time w) :: w_log w |}).
  assert (Hlen : List.length (w_seqs w1) = S len)
    by (simpl; rewrite length_app; simpl; lia).
  assert (Hs : nth_error (w_seqs w1) len = Some s).
  { simpl. rewrite nth_error_app2 by lia. rewrite Nat.sub_diag. reflexivity. }
  assert (Hold : forall j, (j < len)%nat -> nth_error (w_seqs w1) j = nth_error (w_seqs w) j).
  { intros j Hj. simpl. apply nth_error_app1, Hj. }
  assert (Hproj : proj len (w_log w) = []) by (apply proj_fresh, HL).
  assert (Hpend : pend len (w_pending w) = []) by (apply pend_fresh, HP).
  assert (Hnew : forall orig t, In (Ev_enqueue len orig t) (w_log w) -> False).
  { intros orig t Hin. apply HL in Hin. simpl in Hin. lia. }
  assert (HI1 : Inv w1).
  { split; [simpl; apply Forall_app; split; [exact HS|constructor; [reflexivity|constructor]]|].
    rewrite Hlen.
    split; [intros e [<-|He]; simpl; [lia|apply HL in He; fold len in He; lia]|].
    split; [intros p Hp; apply HP in Hp; fold len in Hp; lia|].
    split.
    - intros j Hj. destruct (Nat.eq_dec j len) as [->|Hne].
      + exists items, (w_time w). left; reflexivity.
      + destruct (HE j ltac:(fold len; lia)) as (o & t & Hin). exists o, t. right; exact Hin.
    - intros j orig t [Heq|Hin].
      + injection Heq as <- <- <-.
        exists s, (Ph_done 0 None). split; [exact Hs|]. split.
        * simpl. rewrite Hproj. constructor.
        * left. exact Hpend.
      + assert (Hj : (j < len)%nat) by (apply HL in Hin; exact Hin).
        apply (seq_ok_frame w); [apply (HO j orig t Hin)|simpl; lia|reflexivity|reflexivity|].
        apply Hold, Hj. }
  assert (HI2 : Inv (fst (doNext len w1))).
  { apply (Inv_doNext_idle w1 len s HI1 Hs); [exact Hpend|].
    intros orig t [Heq|Hin]; [|exfalso; exact (Hnew orig t Hin)].
    injection Heq as <- _.
    exists 0%nat, None. split; [simpl; rewrite Hproj; constructor|].
    split; [left; reflexivity|]. discriminate. }
  destruct (doNext len w1) as [w2 [x|]]; simpl in *; [exact HI2|].
  apply (Inv_frame_all w2); auto. simpl. lia.
Qed.

Lemma Inv_step (w w' : World) (l : label) :
  Inv w -> step w l = Some w' -> Inv w'.
Proof.
  intros HI Hst. destruct l as [txt vp|n|d|id|op]; simpl in Hst.
  - injection Hst as <-. apply Inv_speak, HI.
  - destruct (nth_error (w_pending w) n) as [[id [|due]]|] eqn:Hn; try discriminate.
    + injection Hst as <-. apply Inv_fire_callback; assumption.
    + destruct (Z.leb_spec due (w_time w)); [|discriminate].
      injection Hst as <-. apply (Inv_fire_timer w n id due); assumption.
  - destruct (Z.leb_spec 0 d); [|discriminate]. injection Hst as <-.
    apply (Inv_frame_all w); simpl; auto. lia.
  - destruct (nth_error (w_seqs w) id) as [s|] eqn:Hs; [|discriminate].
    injection Hst as <-. apply Inv_cancel; assumption.
  - injection Hst as <-. apply (Inv_frame_all w); simpl; auto. lia.
Qed.

Lemma Inv_run (ls : list label) (w w' : World) :
  Inv w -> run w ls = Some w' -> Inv w'.
Proof.
  revert w; induction ls as [|l ls IH]; intros w HI Hr; simpl in Hr.
  - injection Hr as <-. exact HI.
  - destruct (step w l) as [w1|] eqn:Hst; [|discriminate].
    apply (IH w1); [apply (Inv_step w w1 l HI Hst)|exact Hr].
Qed.

Lemma Inv_init : Inv init_world.
Proof.
  split; [constructor|]. split; [intros e []|]. split; [intros p []|].
  split; [intros j Hj; simpl in Hj; lia|intros j orig t []].
Qed.

Lemma reachable_Inv (w : World) : reachable w -> Inv w.
Proof. intros [ls Hr]. apply (Inv_run ls init_world w Inv_init Hr). Qed.

Lemma reachable_hist (w : World) (id : nat) (orig : list entry) (t : Z) :
  reachable w -> In (Ev_enqueue id orig t) (w_log w) ->
  exists ph, hist 100 orig (proj id (w_log w)) ph.
Proof.
  intros Hr Hin. destruct (reachable_Inv w Hr) as (_ & _ & _ & _ & HO).
  destruct (HO id orig t Hin) as (s & ph & _ & Hh & _). exists ph. exact Hh.
Qed.

(* ------------------------------------------------------------------ *)
(** ** Dispatch order and spacing *)

(** C9. In every reachable world, each sequence's dispatches and
    completions follow [hist 100] over the queue it was built with: items
    go to [speak]/[play] in queue order, one at a time, each only after
    the previous one's completion callback and at least 100 ms after it,
    and each completes after its dispatch. *)
Theorem sequence_order_and_spacing (w : World) (id : nat) (orig : list entry) (t : Z) :
  reachable w -> In (Ev_enqueue id orig t) (w_log w) ->
  exists ph, hist 100 orig (proj id (w_log w)) ph.
Proof. apply reachable_hist. Qed.

Lemma world_you_win_reachable : reachable world_you_win.
Proof. exists trace_you_win. vm_compute. reflexivity. Qed.

Lemma world_you_win_enqueued : In (Ev_enqueue 0 queue_you_win 0) (w_log world_you_win).
Proof. vm_compute. repeat (first [left; reflexivity | right]). Qed.

Lemma sequence_order_and_spacing_witness :
  reachable world_you_win
  /\ In (Ev_enqueue 0 queue_you_win 0) (w_log world_you_win)
  /\ exists ph, hist 100 queue_you_win (proj 0 (w_log world_you_win)) ph.
Proof.
  split; [exact world_you_win_reachable|].
  split; [exact world_you_win_enqueued|].
  apply (sequence_order_and_spacing world_you_win 0 queue_you_win 0);
    [exact world_you_win_reachable|exact world_you_win_enqueued].
Defined.

(** C4 (as the code has it). "You win {{win}} great job" is queued as
    [text " You win", sound "win", text " great job"] (each phrase keeps
    the space it was appended with), and in any reachable world where that
    queue was built its items go out in that order, each only after the
    previous one completed and at least 100 ms later. *)
Theorem you_win_queue_and_order (w : World) (id : nat) (t : Z) :
  reachable w -> In (Ev_enqueue id queue_you_win t) (w_log w) ->
  parse_cues None "You win {{win}} great job" = queue_you_win
  /\ exists ph, hist 100 queue_you_win (proj id (w_log w)) ph.
Proof.
  intros Hr Hin. split; [reflexivity|].
  apply (reachable_hist w id queue_you_win t Hr Hin).
Qed.

Lemma you_win_queue_and_order_witness :
  reachable world_you_win
  /\ In (Ev_enqueue 0 queue_you_win 0) (w_log world_you_win)
  /\ (parse_cues None "You win {{win}} great job" = queue_you_win
      /\ exists ph, hist 100 queue_you_win (proj 0 (w_log world_you_win)) ph)
  /\ proj 0 (w_log world_you_win)
     = [SDisp (text_entry " great job" None) 700; SDone 600;
        SDisp (sound_entry "win") 100; SDone 0; SDisp (text_entry " You win" None) 0].
Proof.
  split; [exact world_you_win_reachable|].
  split; [exact world_you_win_enqueued|].
  split; [|vm_compute; reflexivity].
  apply (you_win_queue_and_order world_you_win 0 0);
    [exact world_you_win_reachable|exact world_you_win_enqueued].
Defined.

(* ------------------------------------------------------------------ *)
(** ** The cue parser: round trips and layout *)

Lemma sapp_assoc (a b c : string) :
  String.append a (String.append b c) = String.append (String.append a b) c.
Proof. induction a as [|x a IH]; simpl; [reflexivity|]. rewrite IH. reflexivity. Qed.

Lemma sapp_nil_r (a : string) : String.append a EmptyString = a.
Proof. induction a as [|x a IH]; simpl; [reflexivity|]. rewrite IH. reflexivity. Qed.

Lemma slen_app (a b : string) :
  String.length (String.append a b) = (String.length a + String.length b)%nat.
Proof. induction a as [|x a IH]; simpl; [reflexivity|]. rewrite IH. reflexivity. Qed.

Lemma split_sp_nonempty (s : string) : split_sp s <> [].
Proof.
  destruct s as [|c s]; simpl; [discriminate|].
  destruct (Ascii.eqb c " "%char); [discriminate|].
  destruct (split_sp s); discriminate.
Qed.

Lemma join_sp_cons (x : string) (t : list string) :
  join_sp (x :: t)
  = match t with [] => x | _ => String.append x (String.append " " (join_sp t)) end.
Proof. destruct t; reflexivity. Qed.

Lemma join_split_sp (s : string) : join_sp (split_sp s) = s.
Proof.
  induction s as [|c s IH]; [reflexivity|]. simpl.
  destruct (Ascii.eqb c " "%char) eqn:E.
  - apply Ascii.eqb_eq in E. subst c. rewrite join_sp_cons.
    destruct (split_sp s) as [|h t] eqn:S; [destruct (split_sp_nonempty s S)|].
    rewrite IH. reflexivity.
  - destruct (split_sp s) as [|h t] eqn:S; [destruct (split_sp_nonempty s S)|].
    destruct t as [|h2 t]; simpl in *; rewrite IH; reflexivity.
Qed.

Lemma parse_tokens_plain (vp : option string) (toks : list string) (buffer : string) :
  toks <> [] -> cue_names toks = [] ->
  parse_tokens vp toks buffer
  = [text_entry (String.append buffer (String.append " " (join_sp toks))) vp].
Proof.
  revert buffer; induction toks as [|t toks IH]; intros buffer Hne Hc; [congruence|].
  simpl in Hc. destruct (cue_match t) eqn:Ht; [discriminate|].
  simpl. rewrite Ht. destruct toks as [|t2 toks].
  - simpl. replace (Nat.ltb 0 (String.length (String.append buffer (String " " t))))
      with true; [reflexivity|].
    symmetry. apply Nat.ltb_lt. rewrite slen_app. simpl. lia.
  - rewrite IH by (discriminate || exact Hc).
    rewrite join_sp_cons. simpl. repeat rewrite <- sapp_assoc. reflexivity.
Qed.

Lemma text_of_app (l1 l2 : list entry) :
  text_of (l1 ++ l2) = String.append (text_of l1) (text_of l2).
Proof.
  induction l1 as [|e l1 IH]; [reflexivity|]. simpl. rewrite IH.
  destruct (is_text e); [apply sapp_assoc|reflexivity].
Qed.

Lemma parse_tokens_text (vp : option string) (toks : list string) (buffer : string) :
  text_of (parse_tokens vp toks buffer) = String.append buffer (plain_text toks).
Proof.
  revert buffer; induction toks as [|t toks IH]; intros buffer; simpl.
  - destruct (Nat.ltb 0 (String.length buffer)) eqn:E.
    + simpl. rewrite sapp_nil_r. reflexivity.
    + destruct buffer; [reflexivity|discriminate].
  - destruct (cue_match t) as [n|].
    + rewrite text_of_app. simpl text_of at 2. rewrite IH. simpl.
      destruct (Nat.ltb 0 (String.length buffer)) eqn:E.
      * simpl. rewrite sapp_nil_r. reflexivity.
      * destruct buffer; [reflexivity|discriminate].
    + rewrite IH. repeat rewrite <- sapp_assoc. reflexivity.
Qed.

Lemma parse_tokens_prefs (vp : option string) (toks : list string) (buffer : string) :
  Forall (fun e => is_text e = true -> prefs e = Some {| voicePreference := vp |})
         (parse_tokens vp toks buffer).
Proof.
  revert buffer; induction toks as [|t toks IH]; intros buffer; simpl.
  - destruct (Nat.ltb 0 (String.length buffer)); repeat constructor.
  - destruct (cue_match t) as [n|]; [|apply IH].
    apply Forall_app. split.
    + destruct (Nat.ltb 0 (String.length buffer)); repeat constructor.
    + constructor; [discriminate|apply IH].
Qed.

Lemma no_adjacent_sound (n : string) (r : list entry) :
  no_adjacent_text (sound_entry n :: r) = no_adjacent_text r.
Proof. destruct r; reflexivity. Qed.

Lemma append_space_lead (buffer t : string) :
  buffer = EmptyString \/ lead_space buffer = true ->
  lead_space (String.append buffer (String.append " " t)) = true.
Proof. intros [->|H]; [reflexivity|]. destruct buffer; [discriminate|exact H]. Qed.

Lemma parse_tokens_layout (vp : option string) (toks : list string) (buffer : string) :
  buffer = EmptyString \/ lead_space buffer = true ->
  let q := parse_tokens vp toks buffer in
  (toks <> [] \/ buffer <> EmptyString -> q <> [])
  /\ no_adjacent_text q = true
  /\ Forall (fun e => is_text e = true -> lead_space (item e) = true) q.
Proof.
  revert buffer; induction toks as [|t toks IH]; intros buffer Hb; simpl.
  - destruct (Nat.ltb 0 (String.length buffer)) eqn:E.
    + split; [discriminate|]. split; [reflexivity|].
      constructor; [|constructor]. intros _. simpl.
      destruct Hb as [->|Hb]; [discriminate|exact Hb].
    + split; [|split; [reflexivity|constructor]].
      intros [H|H]; [congruence|]. destruct buffer; [congruence|discriminate].
  - destruct (cue_match t) as [n|].
    + destruct (IH EmptyString (or_introl eq_refl)) as (_ & IH2 & IH3).
      split; [intros _; destruct (Nat.ltb 0 _); discriminate|].
      split.
      * destruct (Nat.ltb 0 (String.length buffer)); simpl app;
          [|rewrite no_adjacent_sound; exact IH2].
        change (no_adjacent_text (sound_entry n :: parse_tokens vp toks EmptyString) = true).
        rewrite no_adjacent_sound. exact IH2.
      * apply Forall_app. split.
        -- destruct (Nat.ltb 0 (String.length buffer)) eqn:E; constructor; [|constructor].
           intros _. simpl. destruct Hb as [->|Hb]; [discriminate E|exact Hb].
        -- constructor; [discriminate|exact IH3].
    + destruct (IH _ (or_intror (append_space_lead buffer t Hb))) as (IH1 & IH2 & IH3).
      split; [|split; assumption].
      intros _. apply IH1. right. destruct buffer; discriminate.
Qed.

Lemma parse_tokens_ok (vp : option string) (toks : list string) (buffer : string) :
  Forall entry_ok (parse_tokens vp toks buffer).
Proof.
  assert (Ht : forall s, entry_ok (text_entry s vp))
    by (intros s; left; split; [reflexivity|discriminate]).
  assert (Hs : forall n, entry_ok (sound_entry n)) by (intros n; right; reflexivity).
  revert buffer; induction toks as [|t toks IH]; intros buffer; simpl.
  - destruct (Nat.ltb 0 (String.length buffer));
      [constructor; [apply Ht|constructor]|constructor].
  - destruct (cue_match t) as [n|]; [|apply IH].
    apply Forall_app. split.
    + destruct (Nat.ltb 0 (String.length buffer));
      [constructor; [apply Ht|constructor]|constructor].
    + constructor; [apply Hs|apply IH].
Qed.

(** A string without any cue marker is queued as one text item: the
    whole string behind one leading space (the empty string gives the
    single text item " "). *)
Theorem parse_no_marker_single_text (vp : option string) (formattedText : string) :
  cue_names (split_sp formattedText) = [] ->
  parse_cues vp formattedText = [text_entry (String.append " " formattedText) vp].
Proof.
  intros H. unfold parse_cues.
  rewrite (parse_tokens_plain vp _ _ (split_sp_nonempty formattedText) H).
  rewrite join_split_sp. reflexivity.
Qed.

Lemma parse_no_marker_single_text_witness :
  cue_names (split_sp "") = []
  /\ parse_cues None "" = [text_entry " " None]
  /\ parse_cues (Some "Fred") "hello  big world"
     = [text_entry " hello  big world" (Some "Fred")].
Proof.
  split; [reflexivity|]. split.
  - apply (parse_no_marker_single_text None ""). reflexivity.
  - apply (parse_no_marker_single_text (Some "Fred") "hello  big world"). reflexivity.
Defined.

(** No text is lost or changed by the parser: the text items of the queue,
    concatenated, are the non-cue tokens in order, each behind one space;
    and every text item carries the caller's voice preference. *)
Theorem parse_cues_text_and_voice (vp : option string) (formattedText : string) :
  text_of (parse_cues vp formattedText) = plain_text (split_sp formattedText)
  /\ Forall (fun e => is_text e = true -> prefs e = Some {| voicePreference := vp |})
            (parse_cues vp formattedText).
Proof.
  unfold parse_cues. split; [apply parse_tokens_text|apply parse_tokens_prefs].
Qed.

(** C5 (as the code has it). There is no parse error, wherever a token
    sits in the narration string: the queue speaks the tokens without a
    cue, in order, each as [" " + token] (so an unclosed "{{name" is
    spoken as literal text); and a token containing the cue pattern
    anywhere, surrounding characters included ("a{{b}}c"), is one sound
    cue named by the capture, placed between the queue of the tokens
    before it and the queue of the tokens after it. *)
Theorem parse_cue_tokens_anywhere (vp : option string) (formattedText : string) :
  text_of (parse_cues vp formattedText) = plain_text (split_sp formattedText)
  /\ forall pre t post x,
       split_sp formattedText = pre ++ t :: post -> cue_match t = Some x ->
       parse_cues vp formattedText
       = parse_tokens vp pre EmptyString ++ sound_entry x :: parse_tokens vp post EmptyString.
Proof.
  split.
  - unfold parse_cues. apply parse_tokens_text.
  - intros pre t post x Hs Hc. unfold parse_cues. rewrite Hs.
    apply parse_tokens_cue, Hc.
Qed.

Lemma parse_cue_tokens_anywhere_witness :
  split_sp "say a{{b}}c now" = ["say"] ++ "a{{b}}c" :: ["now"]
  /\ cue_match "a{{b}}c" = Some "b"
  /\ parse_cues None "say a{{b}}c now"
     = parse_tokens None ["say"] EmptyString
       ++ sound_entry "b" :: parse_tokens None ["now"] EmptyString.
Proof.
  split; [reflexivity|]. split; [reflexivity|].
  exact (proj2 (parse_cue_tokens_anywhere None "say a{{b}}c now")
           ["say"] "a{{b}}c" ["now"] "b" eq_refl eq_refl).
Defined.

(** The queue built from any string is non-empty, no two of its text items
    are adjacent (text is flushed only before a cue and at the end), and
    every text item begins with a space. *)
Theorem parse_cues_layout (vp : option string) (formattedText : string) :
  let q := parse_cues vp formattedText in
  q <> [] /\ no_adjacent_text q = true
  /\ Forall (fun e => is_text e = true -> lead_space (item e) = true) q.
Proof.
  destruct (parse_tokens_layout vp (split_sp formattedText) EmptyString
              (or_introl eq_refl)) as (H1 & H2 & H3).
  split; [apply H1; left; apply split_sp_nonempty|split; assumption].
Qed.

(* ------------------------------------------------------------------ *)
(** ** The sound library and the loop registry *)

Lemma own_lookup_filter (n name : string) (lib : list (string * nat)) :
  own_lookup n (filter (fun p => negb (String.eqb (fst p) name)) lib)
  = if String.eqb n name then None else own_lookup n lib.
Proof.
  induction lib as [|[k b] lib IH]; simpl.
  - destruct (String.eqb n name); reflexivity.
  - destruct (String.eqb_spec k name) as [->|Hk]; simpl.
    + rewrite IH. destruct (String.eqb_spec n name) as [->|Hn]; [reflexivity|].
      destruct (String.eqb_spec name n); [congruence|reflexivity].
    + rewrite IH. destruct (String.eqb_spec n name) as [->|Hn]; [|reflexivity].
      destruct (String.eqb_spec k name); [congruence|reflexivity].
Qed.

Lemma addSound_library (name : string) (b : nat) (m : Manager) :
  addSound_blocked name (soundLibrary m) = false ->
  soundLibrary (addSound name b m)
  = (name, b) :: filter (fun p => negb (String.eqb (fst p) name)) (soundLibrary m).
Proof. intros H. unfold addSound. rewrite H. reflexivity. Qed.

Lemma addSound_rest (name : string) (b : nat) (m : Manager) :
  loops (addSound name b m) = loops m /\ next_node (addSound name b m) = next_node m
  /\ fx (addSound name b m) = fx m.
Proof.
  unfold addSound. destruct (addSound_blocked name (soundLibrary m)); repeat split.
Qed.

Lemma own_lookup_addSound (name n : string) (b : nat) (m : Manager) :
  addSound_blocked name (soundLibrary m) = false ->
  own_lookup n (soundLibrary (addSound name b m))
  = if String.eqb n name then Some b else own_lookup n (soundLibrary m).
Proof.
  intros H. rewrite (addSound_library name b m H). simpl. rewrite own_lookup_filter.
  destruct (String.eqb_spec name n), (String.eqb_spec n name); congruence.
Qed.

(** [addSound] and lookup: for a name other than ["__proto__"],
    [addSound(name, ...)] makes [soundLibrary[name]] the new buffer
    (replacing an earlier one) and leaves [soundLibrary[n]] as it was for
    every other name [n]; it changes nothing when the assignment is
    refused (a getter-only member of an [AudioBuffer] prototype). *)
Theorem addSound_lookup (name n : string) (b : nat) (m : Manager) :
  name <> "__proto__" ->
  lib_get n (soundLibrary (addSound name b m))
  = if addSound_blocked name (soundLibrary m) then lib_get n (soundLibrary m)
    else if String.eqb n name then Some (JBuffer b) else lib_get n (soundLibrary m).
Proof.
  intros Hp. destruct (addSound_blocked name (soundLibrary m)) eqn:B.
  - unfold addSound. rewrite B. reflexivity.
  - unfold lib_get. rewrite !(own_lookup_addSound name _ b m B).
    destruct (String.eqb_spec "__proto__" name) as [E|_]; [congruence|].
    destruct (String.eqb n name); reflexivity.
Qed.

Lemma addSound_lookup_witness :
  "rain" <> "__proto__"
  /\ lib_get "toString" (soundLibrary (addSound "rain" 1 (addSound "__proto__" 2 fresh_manager)))
     = if addSound_blocked "rain" (soundLibrary (addSound "__proto__" 2 fresh_manager))
       then lib_get "toString" (soundLibrary (addSound "__proto__" 2 fresh_manager))
       else if String.eqb "toString" "rain" then Some (JBuffer 1)
       else lib_get "toString" (soundLibrary (addSound "__proto__" 2 fresh_manager)).
Proof.
  split; [discriminate|].
  apply (addSound_lookup "rain" "toString" 1 (addSound "__proto__" 2 fresh_manager)).
  discriminate.
Defined.

(** [addSound("__proto__", buf)] runs the [__proto__] setter: the buffer
    becomes the library's prototype, which ["__proto__"] reads back, and
    every getter of [AudioBuffer.prototype] not shadowed by a sound of
    that name is now [in] the library: [play] of it creates a node, then
    throws [TypeError] when the getter runs on the library. *)
Theorem addSound_proto (b : nat) (n : string) (o : play_opts) (m : Manager) :
  let m' := addSound "__proto__" b m in
  lib_get "__proto__" (soundLibrary m') = Some (JBuffer b)
  /\ (existsb (String.eqb n) audioBuffer_getter_keys = true ->
      own_lookup n (soundLibrary m) = None ->
      js_in n (soundLibrary m') = true
      /\ play n o m'
         = ({| soundLibrary := soundLibrary m'; loops := loops m;
               next_node := S (next_node m); fx := fx m |},
            Throw (Exn_TypeError "Illegal invocation"))).
Proof.
  cbv zeta.
  assert (B : addSound_blocked "__proto__" (soundLibrary m) = false).
  { unfold addSound_blocked.
    destruct (own_lookup "__proto__" (soundLibrary m)); reflexivity. }
  split.
  - unfold lib_get. rewrite (own_lookup_addSound _ _ b m B), String.eqb_refl. reflexivity.
  - intros G N.
    assert (Hn : String.eqb n "__proto__" = false).
    { destruct (String.eqb_spec n "__proto__") as [->|]; [discriminate G|reflexivity]. }
    assert (L : lib_get n (soundLibrary (addSound "__proto__" b m)) = Some JThrowingGetter).
    { unfold lib_get. rewrite !(own_lookup_addSound _ _ b m B), Hn, N, String.eqb_refl, G.
      reflexivity. }
    split; [unfold js_in; rewrite L; reflexivity|].
    unfold play. rewrite L. unfold addSound. rewrite B. reflexivity.
Qed.

Lemma addSound_proto_witness :
  lib_get "__proto__" (soundLibrary (addSound "__proto__" 3 fresh_manager)) = Some (JBuffer 3)
  /\ existsb (String.eqb "length") audioBuffer_getter_keys = true
  /\ own_lookup "length" (soundLibrary fresh_manager) = None
  /\ js_in "length" (soundLibrary (addSound "__proto__" 3 fresh_manager)) = true
  /\ play "length" default_play_opts (addSound "__proto__" 3 fresh_manager)
     = ({| soundLibrary := [("__proto__", 3%nat)]; loops := []; next_node := 1; fx := [] |},
        Throw (Exn_TypeError "Illegal invocation")).
Proof.
  destruct (addSound_proto 3 "length" default_play_opts fresh_manager) as [A B].
  split; [exact A|]. split; [reflexivity|]. split; [reflexivity|].
  exact (B eq_refl eq_refl).
Defined.

(** After [addSound(name, ...)], [play(name, options)] finds the buffer,
    also for a name such as ["toString"] that plain objects inherit, and
    creates a new source node; it returns it when [offset >= 0] and throws
    [RangeError] from [start] otherwise. When the assignment was refused,
    [play] throws the getter's [TypeError]. *)
Theorem play_after_addSound (name : string) (b : nat) (o : play_opts) (m : Manager) :
  snd (play name o (addSound name b m))
  = if addSound_blocked name (soundLibrary m) then Throw (Exn_TypeError "Illegal invocation")
    else if Qltb (offset o) 0 then Throw Exn_RangeError else Ok (next_node m).
Proof.
  destruct (addSound_blocked name (soundLibrary m)) eqn:B.
  - unfold addSound. rewrite B. unfold addSound_blocked in B. unfold play, lib_get.
    destruct (own_lookup name (soundLibrary m)); [discriminate|].
    destruct (own_lookup "__proto__" (soundLibrary m)); [|discriminate].
    rewrite B. reflexivity.
  - destruct (addSound_rest name b m) as (_ & Nn & _).
    unfold play, lib_get. rewrite (own_lookup_addSound _ _ b m B), String.eqb_refl.
    cbn beta iota zeta. rewrite Nn. destruct (Qltb (offset o) 0); reflexivity.
Qed.

Lemma NoDup_snoc {A} (l : list A) (x : A) :
  NoDup l -> ~ In x l -> NoDup (l ++ [x]).
Proof.
  induction 1 as [|a l Ha Hl IH]; intros Hx; simpl.
  - constructor; [intros []|constructor].
  - constructor.
    + intros Hin. apply in_app_or in Hin. destruct Hin as [Hin|[<-|[]]]; [tauto|].
      apply Hx. left. reflexivity.
    + apply IH. intros Hin. apply Hx. right. exact Hin.
Qed.

Lemma stop_each_handles (name : string) (st : nat -> bool) (l : list loop_entry) :
  map loopHandle (fst (fst (stop_each name st l))) = map loopHandle l.
Proof.
  induction l as [|e l IH]; simpl; [reflexivity|].
  destruct (loop_matches name e); [destruct (st (loopHandle e))|];
    try reflexivity;
    destruct (stop_each name st l) as [[l' s'] r']; simpl in *; rewrite IH; reflexivity.
Qed.

Lemma handles_ok_loops (m m' : Manager) (l : list loop_entry) :
  handles_ok m -> loops m' = l -> next_node m' = next_node m ->
  map loopHandle l = map loopHandle (loops m) -> handles_ok m'.
Proof.
  unfold handles_ok. intros [Hn Hf] -> Nn Hm. split; [rewrite Hm; exact Hn|].
  rewrite Nn. apply (Forall_map loopHandle (fun h => (h < next_node m)%nat)).
  rewrite Hm. apply (Forall_map loopHandle (fun h => (h < next_node m)%nat)), Hf.
Qed.

Lemma NoDup_map_filter {A B} (h : A -> B) (f : A -> bool) (l : list A) :
  NoDup (map h l) -> NoDup (map h (filter f l)).
Proof.
  induction l as [|a l IH]; intros Hn; simpl; [constructor|].
  inversion Hn as [|? ? Ha Hl]; subst.
  destruct (f a); simpl; [|apply IH, Hl].
  constructor; [|apply IH, Hl].
  intros Hin. apply Ha. apply in_map_iff in Hin. destruct Hin as (x & <- & Hx).
  apply filter_In in Hx. apply in_map, Hx.
Qed.

Lemma handles_ok_apply (m : Manager) (op : mgr_op) :
  handles_ok m -> handles_ok (mgr_apply m op).
Proof.
  intros H. pose proof H as [Hn Hf]. unfold handles_ok.
  destruct op as [name buf|name o|name]; simpl.
  - destruct (addSound_rest name buf m) as (L & Nn & _). rewrite L, Nn. split; assumption.
  - unfold play. destruct (lib_get name (soundLibrary m)) as [[b| |]|]; simpl.
    + destruct (loop o); destruct (Qltb (offset o) 0); cbn [fst loops next_node].
      all: try (split; [exact Hn|]; eapply Forall_impl; [|exact Hf];
                intros e He; simpl in *; lia).
      all: split;
        [ rewrite map_app; apply NoDup_snoc; [exact Hn|];
          intros Hin; apply in_map_iff in Hin; destruct Hin as (e & He & Hin);
          rewrite Forall_forall in Hf; specialize (Hf e Hin); simpl in He; lia
        | apply Forall_app; split; [|constructor; [simpl; lia|constructor]];
          eapply Forall_impl; [|exact Hf]; intros e He; simpl in *; lia ].
    + split; [exact Hn|]. eapply Forall_impl; [|exact Hf]. intros e He; simpl in *; lia.
    + split; [exact Hn|]. eapply Forall_impl; [|exact Hf]. intros e He; simpl in *; lia.
    + split; assumption.
  - unfold stopLoop.
    pose proof (stop_each_handles name (fun h => node_started h (fx m)) (loops m)) as E.
    destruct (stop_each name (fun h => node_started h (fx m)) (loops m))
      as [[cleared stopped] [x|]]; simpl in E.
    + apply (handles_ok_loops m _ cleared H); [reflexivity|reflexivity|exact E].
    + split.
      * apply NoDup_map_filter. rewrite E. exact Hn.
      * apply Forall_filter_sub.
        apply (Forall_map loopHandle (fun h => (h < next_node m)%nat)).
        rewrite E. apply (Forall_map loopHandle (fun h => (h < next_node m)%nat)), Hf.
Qed.

(** Every loop in the registry has its own source node: the handles are
    pairwise distinct and were all created by earlier [play] calls, so
    [stopLoop] never stops a node twice or stops a node of another loop. *)
Theorem loop_handles_distinct (ops : list mgr_op) :
  let m := mgr_run fresh_manager ops in
  NoDup (map loopHandle (loops m))
  /\ Forall (fun e => (loopHandle e < next_node m)%nat) (loops m).
Proof.
  cbv zeta. change (handles_ok (mgr_run fresh_manager ops)).
  unfold mgr_run.
  assert (H0 : handles_ok fresh_manager) by (split; constructor).
  revert H0. generalize fresh_manager.
  induction ops as [|op ops IH]; intros m Hm; simpl; [exact Hm|].
  apply IH, handles_ok_apply, Hm.
Qed.

Lemma stopLoop_no_name (name : string) (m : Manager) :
  Forall (fun e => loop_matches name e = true -> node_started (loopHandle e) (fx m) = true)
         (loops m) ->
  snd (stopLoop name m) = Ok tt
  /\ Forall (fun e => soundName e <> name) (loops (fst (stopLoop name m))).
Proof.
  intros H. unfold stopLoop. rewrite (stop_each_started name _ _ H). simpl.
  split; [reflexivity|].
  apply Forall_forall. intros e He.
  apply filter_In in He. destruct He as [He Hp].
  apply in_map_iff in He. destruct He as (x & <- & Hx).
  unfold loop_matches in *.
  destruct (String.eqb_spec (soundName x) name) as [E|E];
    destruct (isPlaying x) eqn:P; simpl in *; congruence.
Qed.

(** A loop started with [play(name, {loop: true, offset})] on a registered
    name, with [offset >= 0], is stopped by [stopLoop(name)] when every
    loop already registered under [name] was started: [stopLoop] returns
    normally, the new source node gets [stop()], and no registry entry for
    [name] is left. *)
Theorem play_loop_then_stopLoop (name : string) (o : play_opts) (m : Manager) (b : nat) :
  own_lookup name (soundLibrary m) = Some b -> loop o = true ->
  Qltb (offset o) 0 = false ->
  Forall (fun e => loop_matches name e = true -> node_started (loopHandle e) (fx m) = true)
         (loops m) ->
  snd (play name o m) = Ok (next_node m)
  /\ snd (stopLoop name (fst (play name o m))) = Ok tt
  /\ In (Fx_stop (next_node m)) (fx (fst (stopLoop name (fst (play name o m)))))
  /\ Forall (fun e => soundName e <> name) (loops (fst (stopLoop name (fst (play name o m))))).
Proof.
  intros Hb Hl Hq Hs.
  set (new := {| soundName := name; loopHandle := next_node m; isPlaying := true |}).
  assert (E : play name o m
              = ({| soundLibrary := soundLibrary m; loops := loops m ++ [new];
                    next_node := S (next_node m);
                    fx := fx m ++ ((if callback o then [Fx_onended (next_node m)] else [])
                                   ++ play_graph (next_node m) o)
                               ++ [Fx_start (next_node m) (offset o);
                                   Fx_soundEffect name (panValue o) (volume o) (loop o)] |},
                 Ok (next_node m))).
  { unfold play, lib_get. rewrite Hb, Hl, Hq. reflexivity. }
  split; [rewrite E; reflexivity|].
  remember (fst (play name o m)) as P eqn:EP.
  assert (HP : Forall (fun e => loop_matches name e = true ->
                                node_started (loopHandle e) (fx P) = true) (loops P)).
  { rewrite EP, E. cbn [fst loops fx]. apply Forall_app; split.
    - eapply Forall_impl; [|exact Hs]. intros e He M. apply node_started_app, He, M.
    - constructor; [|constructor]. intros _.
      apply node_started_in with (w := offset o).
      apply in_or_app; right. apply in_or_app; right. left; reflexivity. }
  destruct (stopLoop_no_name name P HP) as [S1 S2].
  split; [exact S1|]. split; [|exact S2].
  unfold stopLoop. rewrite (stop_each_started name _ _ HP). cbn [fst].
  apply in_or_app. right. apply in_map_iff. exists new. split; [reflexivity|].
  apply filter_In. split.
  - rewrite EP, E. cbn [fst loops]. apply in_or_app. right. left. reflexivity.
  - unfold loop_matches. simpl. rewrite String.eqb_refl. reflexivity.
Qed.

Lemma play_loop_then_stopLoop_witness :
  own_lookup "rain" (soundLibrary (addSound "rain" 1 fresh_manager)) = Some 1%nat
  /\ loop opts_loop = true
  /\ Qltb (offset opts_loop) 0 = false
  /\ Forall (fun e => loop_matches "rain" e = true ->
                      node_started (loopHandle e) (fx (addSound "rain" 1 fresh_manager)) = true)
            (loops (addSound "rain" 1 fresh_manager))
  /\ (snd (play "rain" opts_loop (addSound "rain" 1 fresh_manager)) = Ok 0%nat
      /\ snd (stopLoop "rain" (fst (play "rain" opts_loop
                                       (addSound "rain" 1 fresh_manager)))) = Ok tt
      /\ In (Fx_stop 0) (fx (fst (stopLoop "rain" (fst (play "rain" opts_loop
                                                   (addSound "rain" 1 fresh_manager))))))
      /\ Forall (fun e => soundName e <> "rain")
                (loops (fst (stopLoop "rain" (fst (play "rain" opts_loop
                                                (addSound "rain" 1 fresh_manager))))))).
Proof.
  split; [reflexivity|]. split; [reflexivity|]. split; [reflexivity|].
  split; [constructor|].
  apply (play_loop_then_stopLoop "rain" opts_loop (addSound "rain" 1 fresh_manager) 1);
    [reflexivity|reflexivity|reflexivity|constructor].
Defined.

(* ------------------------------------------------------------------ *)
(** ** Sequences: when they fail, when they fall silent *)

Lemma nth_error_snoc_len {A} (l : list A) (x : A) :
  nth_error (l ++ [x]) (List.length l) = Some x.
Proof. induction l as [|a l IH]; simpl; [reflexivity|exact IH]. Qed.

(** [doNext] on a started sequence whose head item is well formed fails
    exactly when the head is a sound that is not an own entry of the
    library. *)
Lemma doNext_first_exn (id : nat) (w : World) (s : Seq) (e : entry) (rest : list entry) :
  nth_error (w_seqs w) id = Some s -> sq_isPlaying s = true ->
  sq_queue s = e :: rest -> entry_ok e ->
  (snd (doNext id w) = None
   <-> is_text e = true \/ exists b, own_lookup (item e) (soundLibrary (w_mgr w)) = Some b).
Proof.
  intros Hs Hp Q He. unfold doNext. rewrite Hs, Q, Hp.
  destruct He as [[Ht Hpr]|Hso].
  - assert (E : String.eqb (mediaType e) "text" = true) by (rewrite Ht; reflexivity).
    rewrite E. destruct (prefs e) as [p|]; [|congruence]. cbn [snd].
    split; [intros _; left; exact E|reflexivity].
  - assert (E1 : String.eqb (mediaType e) "text" = false) by (rewrite Hso; reflexivity).
    assert (E2 : String.eqb (mediaType e) "sound" = true) by (rewrite Hso; reflexivity).
    rewrite E1, E2. unfold play, lib_get. cbn [w_mgr set_seq].
    destruct (own_lookup (item e) (soundLibrary (w_mgr w))) as [b|] eqn:L.
    + simpl. split; [intros _; right; exists b; reflexivity|reflexivity].
    + split; [|intros [H|[b H]]; [|discriminate];
                 exfalso; unfold is_text in H; rewrite Hso in H; discriminate].
      destruct (own_lookup "__proto__" (soundLibrary (w_mgr w)));
        [destruct (existsb (String.eqb (item e)) audioBuffer_getter_keys);
         [|destruct (existsb (String.eqb (item e)) audioBuffer_method_keys)]|];
        try destruct (existsb (String.eqb (item e)) object_prototype_keys);
        simpl; discriminate.
Qed.

(** What [speakWithSoundEffects] returns: it raises an exception exactly
    when the first item of the queue it builds is a sound cue whose name
    is not registered with [addSound] (an unknown or an inherited name); a
    later missing sound is only met when the sequence reaches it. On an
    exception [AudioManager.queue] keeps its old value, otherwise it names
    the new sequence. *)
Theorem speak_throws_iff_first_sound_missing
  (formattedText : string) (vp : option string) (w : World) :
  (snd (speakWithSoundEffects formattedText vp w) = None
   <-> match parse_cues vp formattedText with
       | e :: _ => is_text e = true
                   \/ exists b, own_lookup (item e) (soundLibrary (w_mgr w)) = Some b
       | [] => False
       end)
  /\ w_queue (fst (speakWithSoundEffects formattedText vp w))
     = match snd (speakWithSoundEffects formattedText vp w) with
       | None => Some (List.length (w_seqs w))
       | Some _ => w_queue w
       end.
Proof.
  pose proof (parse_tokens_ok vp (split_sp formattedText) EmptyString) as Hok.
  pose proof (parse_tokens_layout vp (split_sp formattedText) EmptyString
                (or_introl eq_refl)) as L.
  cbv zeta in L. destruct L as (Hne & _ & _).
  fold (parse_cues vp formattedText) in Hok, Hne.
  unfold speakWithSoundEffects. cbv zeta.
  destruct (parse_cues vp formattedText) as [|e rest] eqn:Q.
  { exfalso. apply Hne; [left; apply split_sp_nonempty|reflexivity]. }
  inversion Hok as [|? ? He _]; subst.
  match goal with |- context [doNext ?i ?w1] =>
    pose proof (doNext_first_exn i w1 _ e rest (nth_error_snoc_len (w_seqs w) _)
                  eq_refl eq_refl He) as Hx;
    pose proof (proj1 (proj2 (proj2 (doNext_frame i w1)))) as Hq;
    destruct (doNext i w1) as [w2 r]
  end.
  cbn [fst snd w_mgr w_queue] in Hx, Hq |- *. destruct r as [x|].
  - split; [|exact Hq]. split; [discriminate|intros H; apply Hx in H; discriminate].
  - split; [|reflexivity]. split; [intros _; apply Hx; reflexivity|intros _; reflexivity].
Qed.

Lemma speak_throws_iff_first_sound_missing_witness :
  snd (speakWithSoundEffects "{{ghost}} boo" None init_world) <> None
  /\ snd (speakWithSoundEffects "boo {{ghost}}" None init_world) = None.
Proof.
  split.
  - intros H. apply (proj1 (speak_throws_iff_first_sound_missing "{{ghost}} boo" None
                              init_world)) in H.
    vm_compute in H. destruct H as [H|[b H]]; discriminate.
  - apply (proj1 (speak_throws_iff_first_sound_missing "boo {{ghost}}" None init_world)).
    vm_compute. left. reflexivity.
Defined.

Lemma WF_frame (w w' : World) :
  WF w -> w_seqs w' = w_seqs w -> w_log w' = w_log w -> WF w'.
Proof. intros [H1 H2] E1 E2. split; [rewrite E1; exact H1|rewrite E2; exact H2]. Qed.

Lemma WF_log (w : World) (e : ev) :
  WF w -> (forall id x t, e = Ev_throw id x t -> seq_exn x) -> WF (log_ev e w).
Proof.
  intros [H1 H2] He. split; [exact H1|].
  intros id x t [E|Hin]; [exact (He id x t E)|exact (H2 id x t Hin)].
Qed.

Lemma WF_set_seq (w : World) (id : nat) (s : Seq) :
  WF w -> Forall entry_ok (sq_queue s) -> WF (set_seq id s w).
Proof. intros [H1 H2] Hs. split; [apply Forall_set_nth; assumption|exact H2]. Qed.

Lemma play_exn (name : string) (o : play_opts) (m : Manager) (x : exn) :
  Qltb (offset o) 0 = false -> snd (play name o m) = Throw x -> seq_exn x.
Proof.
  intros Ho. unfold play. destruct (lib_get name (soundLibrary m)) as [[b| |]|];
    simpl; try rewrite Ho; intros H.
  - discriminate.
  - injection H as <-. right. right. left. reflexivity.
  - injection H as <-. right. right. right. reflexivity.
  - injection H as <-. right. left. eexists. reflexivity.
Qed.

Lemma doNext_WF (id : nat) (w : World) :
  WF w -> WF (fst (doNext id w)) /\ (forall x, snd (doNext id w) = Some x -> seq_exn x).
Proof.
  intros HW. unfold doNext.
  destruct (nth_error (w_seqs w) id) as [s|] eqn:Hs;
    [|split; [exact HW|intros x H; discriminate]].
  assert (Hq : Forall entry_ok (sq_queue s)).
  { destruct HW as [H1 _]. rewrite Forall_forall in H1.
    apply H1, (nth_error_In _ id), Hs. }
  assert (Hsh : WF (log_ev (Ev_throw id shutdown_exn (w_time w)) w)
                /\ (forall x, Some shutdown_exn = Some x -> seq_exn x)).
  { split.
    - apply WF_log; [exact HW|]. intros j x t E. injection E as _ <- _. left. reflexivity.
    - intros x E. injection E as <-. left. reflexivity. }
  destruct (sq_queue s) as [|e rest] eqn:Q; [exact Hsh|].
  destruct (sq_isPlaying s); [|exact Hsh].
  inversion Hq as [|? ? He Hr]; subst.
  match goal with |- context [set_seq id ?s1 w] =>
    assert (Hw1 : WF (set_seq id s1 w)) by (apply WF_set_seq; assumption)
  end.
  destruct (String.eqb (mediaType e) "text") eqn:Et.
  - destruct (prefs e) as [p|] eqn:Ep.
    + cbn [fst snd]. split; [|intros x Hx; discriminate].
      apply WF_log; [|intros j x t E; discriminate].
      apply (WF_frame _ _ Hw1); reflexivity.
    + exfalso. destruct He as [[Hm Hp]|Hm]; [congruence|]. rewrite Hm in Et. discriminate.
  - destruct (String.eqb (mediaType e) "sound") eqn:Es.
    + destruct (play _ _ _) as [m' [r|x]] eqn:Ep; cbn [fst snd].
      * split; [|intros x Hx; discriminate].
        apply WF_log; [|intros j x t E; discriminate].
        apply (WF_frame _ _ Hw1); reflexivity.
      * match type of Ep with play ?n ?o ?m = _ =>
          assert (Hx : seq_exn x)
            by (apply (play_exn n o m); [reflexivity|rewrite Ep; reflexivity])
        end.
        split; [|intros x' E; injection E as <-; exact Hx].
        apply WF_log; [|intros j x' t E; injection E as _ <- _; exact Hx].
        apply (WF_frame _ _ Hw1); reflexivity.
    + exfalso. destruct He as [[Hm _]|Hm]; rewrite Hm in *; discriminate.
Qed.

Lemma WF_step (w w' : World) (l : label) : WF w -> step w l = Some w' -> WF w'.
Proof.
  intros HW Hst. destruct l as [txt vp|n|d|id|op]; simpl in Hst.
  - injection Hst as <-. unfold speakWithSoundEffects. cbv zeta.
    match goal with |- context [doNext ?i ?w1] =>
      assert (H1 : WF w1);
      [|destruct (doNext_WF i w1 H1) as [H2 _]; destruct (doNext i w1) as [w2 [x|]];
        [exact H2|apply (WF_frame w2); [exact H2|reflexivity|reflexivity]]]
    end.
    destruct HW as [Hs Hl]. split.
    + simpl. apply Forall_app. split; [exact Hs|].
      constructor; [apply parse_tokens_ok|constructor].
    + intros id x t [E|Hin]; [discriminate|exact (Hl id x t Hin)].
  - destruct (nth_error (w_pending w) n) as [[i [|due]]|] eqn:Hn; try discriminate.
    + injection Hst as <-. unfold seq_callback. cbn [w_seqs log_ev remove_pending].
      assert (H0 : WF (log_ev (Ev_complete i (w_time w)) (remove_pending n w)))
        by (apply WF_log; [apply (WF_frame w); [exact HW|reflexivity|reflexivity]
                          |intros j x t E; discriminate]).
      destruct (nth_error (w_seqs w) i) as [si|]; [|exact H0].
      destruct (sq_queue si).
      * apply WF_set_seq; [exact H0|constructor].
      * apply (WF_frame _ _ H0); reflexivity.
    + destruct (Z.leb due (w_time w)); [|discriminate]. injection Hst as <-.
      apply doNext_WF. apply (WF_frame w); [exact HW|reflexivity|reflexivity].
  - destruct (Z.leb 0 d); [|discriminate]. injection Hst as <-.
    apply (WF_frame w); [exact HW|reflexivity|reflexivity].
  - destruct (nth_error (w_seqs w) id) as [s|]; [|discriminate]. injection Hst as <-.
    apply WF_set_seq; [exact HW|constructor].
  - injection Hst as <-. apply (WF_frame w); [exact HW|reflexivity|reflexivity].
Qed.

(** The only exceptions a narration ever raises, in any reachable world,
    come from [play] (a sound name that is not registered, one inherited
    from [Object.prototype], or a getter of [AudioBuffer.prototype] once a
    buffer was stored under ["__proto__"]) or from the call of the missing
    [shutdown] method: the queues the parser builds never make [doNext]
    throw "invalid media type" or read the preferences of an entry that
    has none. *)
Theorem sequence_exceptions (w : World) (id : nat) (x : exn) (t : Z) :
  reachable w -> In (Ev_throw id x t) (w_log w) -> seq_exn x.
Proof.
  intros [ls Hr] Hin.
  assert (H : WF w).
  { assert (H0 : WF init_world) by (split; [constructor|intros ? ? ? []]).
    revert Hr H0. generalize init_world.
    induction ls as [|l ls IH]; intros w0 Hr H0; simpl in Hr.
    - injection Hr as <-. exact H0.
    - destruct (step w0 l) as [w1|] eqn:Hst; [|discriminate].
      apply (IH w1 Hr), (WF_step w0 w1 l H0 Hst). }
  destruct H as [_ H]. exact (H id x t Hin).
Qed.

Lemma world_cancel_shutdown_reachable : reachable world_cancel_shutdown.
Proof. exists trace_cancel_shutdown. vm_compute. reflexivity. Qed.

Lemma sequence_exceptions_witness :
  reachable world_cancel_shutdown
  /\ In (Ev_throw 0 shutdown_exn 100) (w_log world_cancel_shutdown)
  /\ seq_exn shutdown_exn.
Proof.
  split; [exact world_cancel_shutdown_reachable|].
  assert (Hin : In (Ev_throw 0 shutdown_exn 100) (w_log world_cancel_shutdown))
    by (vm_compute; left; reflexivity).
  split; [exact Hin|].
  apply (sequence_exceptions world_cancel_shutdown 0 shutdown_exn 100
           world_cancel_shutdown_reachable Hin).
Defined.

Lemma doNext_drained (j : nat) (w : World) (id : nat) (s : Seq) :
  nth_error (w_seqs w) id = Some s -> sq_queue s = [] ->
  (exists s', nth_error (w_seqs (fst (doNext j w))) id = Some s' /\ sq_queue s' = [])
  /\ exists new, w_log (fst (doNext j w)) = new ++ w_log w
                 /\ (forall e t, ~ In (Ev_dispatch id e t) new).
Proof.
  intros Hs Q.
  destruct (nth_error (w_seqs w) j) as [sj|] eqn:Hj.
  2:{ unfold doNext. rewrite Hj. cbn [fst]. split; [eauto|].
      exists []. split; [reflexivity|intros e t []]. }
  destruct (Nat.eq_dec j id) as [->|Hne].
  - unfold doNext. rewrite Hs, Q. cbn [fst log_ev w_seqs w_log]. split; [eauto|].
    exists [Ev_throw id shutdown_exn (w_time w)]. split; [reflexivity|].
    intros e t [E|[]]; discriminate.
  - pose proof (doNext_cases j w sj Hj) as C. cbv zeta in C.
    destruct C as (_ & _ & Hoth & _ & _ & Hc).
    split; [exists s; rewrite (Hoth id (not_eq_sym Hne)); auto|].
    destruct Hc as [(_ & x & Hl)|(e & rest & _ & _ & Hl & _)].
    + exists [Ev_throw j x (w_time w)]. split; [exact Hl|]. intros e t [E|[]]; discriminate.
    + exists [Ev_dispatch j e (w_time w)]. split; [exact Hl|].
      intros e' t [E|[]]. injection E as E _ _. congruence.
Qed.

Lemma app_snoc_log {A} (new : list A) (x : A) (l : list A) :
  new ++ x :: l = (new ++ [x]) ++ l.
Proof. rewrite <- app_assoc. reflexivity. Qed.

Lemma drained_step (w w' : World) (id : nat) (s : Seq) (l : label) :
  nth_error (w_seqs w) id = Some s -> sq_queue s = [] -> step w l = Some w' ->
  (exists s', nth_error (w_seqs w') id = Some s' /\ sq_queue s' = [])
  /\ exists new, w_log w' = new ++ w_log w /\ (forall e t, ~ In (Ev_dispatch id e t) new).
Proof.
  intros Hs Q Hst.
  assert (Hnil : exists new, w_log w = new ++ w_log w
                             /\ (forall e t, ~ In (Ev_dispatch id e t) new))
    by (exists []; split; [reflexivity|intros e t []]).
  destruct l as [txt vp|n|d|j|op]; simpl in Hst.
  - injection Hst as <-. unfold speakWithSoundEffects. cbv zeta.
    match goal with |- context [doNext ?i ?w1] =>
      assert (Hs1 : nth_error (w_seqs w1) id = Some s)
        by (cbn [w_seqs]; rewrite nth_error_app1; [exact Hs|apply nth_error_Some; congruence]);
      destruct (doNext_drained i w1 id s Hs1 Q) as [Hd1 (new & Hl & Hn)];
      destruct (doNext i w1) as [w2 [x|]]
    end;
    cbn [fst w_log w_seqs] in Hd1, Hl |- *; rewrite Hl, app_snoc_log;
    (split; [exact Hd1|]); eexists; (split; [reflexivity|]);
    intros e t Hin; apply in_app_or in Hin;
    (destruct Hin as [Hin|[E|[]]]; [exact (Hn e t Hin)|discriminate]).
  - destruct (nth_error (w_pending w) n) as [[i [|due]]|] eqn:Hn; try discriminate.
    + injection Hst as <-. unfold seq_callback. cbn [w_seqs log_ev remove_pending].
      assert (Hc : exists new, Ev_complete i (w_time w) :: w_log w = new ++ w_log w
                               /\ (forall e t, ~ In (Ev_dispatch id e t) new))
        by (exists [Ev_complete i (w_time w)]; split; [reflexivity|intros e t [E|[]]; discriminate]).
      destruct (nth_error (w_seqs w) i) as [si|] eqn:Hi; [|split; [eauto|exact Hc]].
      destruct (sq_queue si) as [|x r] eqn:Qi.
      * cbn [set_seq w_seqs w_log]. split; [|exact Hc].
        destruct (Nat.eq_dec i id) as [->|Hne].
        -- exists (cancel_seq si). split; [apply (nth_error_set_nth_eq _ _ _ _ Hi)|reflexivity].
        -- exists s. rewrite nth_error_set_nth_ne; [split; [exact Hs|exact Q]|congruence].
      * cbn [push_pending w_seqs w_log]. split; [eauto|exact Hc].
    + destruct (Z.leb due (w_time w)); [|discriminate]. injection Hst as <-.
      apply (doNext_drained i (remove_pending n w) id s Hs Q).
  - destruct (Z.leb 0 d); [|discriminate]. injection Hst as <-.
    cbn [w_seqs w_log]. split; [eauto|exact Hnil].
  - destruct (nth_error (w_seqs w) j) as [sj|] eqn:Hj; [|discriminate]. injection Hst as <-.
    cbn [set_seq w_seqs w_log]. split; [|exact Hnil].
    destruct (Nat.eq_dec j id) as [->|Hne].
    + exists (cancel_seq sj). split; [apply (nth_error_set_nth_eq _ _ _ _ Hj)|reflexivity].
    + exists s. rewrite nth_error_set_nth_ne; [split; [exact Hs|exact Q]|congruence].
  - injection Hst as <-. cbn [with_mgr w_seqs w_log]. split; [eauto|exact Hnil].
Qed.

(** Once a sequence's queue is empty (after [cancel()], or once its last
    item has been taken), it never hands another item to [speak] or
    [play], whatever the host, the game and other narrations do next: no
    later dispatch event carries its id. *)
Theorem drained_sequence_stays_silent (w w' : World) (id : nat) (s : Seq) (ls : list label) :
  nth_error (w_seqs w) id = Some s -> sq_queue s = [] -> run w ls = Some w' ->
  exists new, w_log w' = new ++ w_log w /\ (forall e t, ~ In (Ev_dispatch id e t) new).
Proof.
  revert w s. induction ls as [|l ls IH]; intros w s Hs Q Hr; simpl in Hr.
  - injection Hr as <-. exists []. split; [reflexivity|intros e t []].
  - destruct (step w l) as [w1|] eqn:Hst; [|discriminate].
    destruct (drained_step w w1 id s l Hs Q Hst) as [(s1 & Hs1 & Q1) (n1 & Hl1 & Hn1)].
    destruct (IH w1 s1 Hs1 Q1 Hr) as (n2 & Hl2 & Hn2).
    exists (n2 ++ n1). split; [rewrite Hl2, Hl1, app_assoc; reflexivity|].
    intros e t Hin. apply in_app_or in Hin.
    destruct Hin as [Hin|Hin]; [exact (Hn2 e t Hin)|exact (Hn1 e t Hin)].
Qed.

Lemma drained_sequence_stays_silent_witness :
  nth_error (w_seqs world_cancel_in_spacing) 0
    = Some {| sq_queue := []; sq_spacing := 100; sq_isPlaying := false |}
  /\ run world_cancel_in_spacing trace_after_cancel = Some world_after_cancel
  /\ exists new, w_log world_after_cancel = new ++ w_log world_cancel_in_spacing
                 /\ (forall e t, ~ In (Ev_dispatch 0 e t) new).
Proof.
  split; [vm_compute; reflexivity|]. split; [vm_compute; reflexivity|].
  apply (drained_sequence_stays_silent world_cancel_in_spacing world_after_cancel 0
           {| sq_queue := []; sq_spacing := 100; sq_isPlaying := false |}
           trace_after_cancel); [vm_compute; reflexivity|reflexivity|vm_compute; reflexivity].
Defined.

(** In every reachable world, when the completion callback of a
    sequence's last item runs, the sequence is cancelled ([isPlaying]
    false, queue empty) and the host is left holding no callback or timer
    for it: a sequence that plays to its end never reaches the call of the
    missing [shutdown] method. *)
Theorem last_callback_stops_sequence (w : World) (n id : nat) (s : Seq) :
  reachable w -> nth_error (w_pending w) n = Some (id, K_callback) ->
  nth_error (w_seqs w) id = Some s -> sq_queue s = [] ->
  exists w', step w (L_fire n) = Some w'
             /\ nth_error (w_seqs w') id = Some (cancel_seq s)
             /\ pend id (w_pending w') = [].
Proof.
  intros Hr Hn Hs Q. pose proof (reachable_Inv w Hr) as (_ & _ & _ & HE & HO).
  assert (Hid : (id < List.length (w_seqs w))%nat) by (apply nth_error_Some; congruence).
  destruct (HE id Hid) as (orig0 & t0 & Hin0).
  destruct (seq_ok_take w n id _ orig0 (HO id orig0 t0 Hin0) Hn)
    as (_ & _ & _ & _ & _ & Hrm).
  eexists. split; [unfold step; rewrite Hn; reflexivity|].
  unfold seq_callback. cbn [w_seqs log_ev remove_pending]. rewrite Hs, Q.
  cbn [set_seq w_seqs w_pending]. split; [apply (nth_error_set_nth_eq _ _ _ _ Hs)|exact Hrm].
Qed.

Lemma last_callback_stops_sequence_witness :
  reachable world_you_win
  /\ nth_error (w_pending world_you_win) 0 = Some (0%nat, K_callback)
  /\ nth_error (w_seqs world_you_win) 0
     = Some {| sq_queue := []; sq_spacing := 100; sq_isPlaying := true |}
  /\ exists w', step world_you_win (L_fire 0) = Some w'
                /\ nth_error (w_seqs w') 0
                   = Some (cancel_seq {| sq_queue := []; sq_spacing := 100;
                                         sq_isPlaying := true |})
                /\ pend 0 (w_pending w') = [].
Proof.
  split; [exact world_you_win_reachable|].
  split; [vm_compute; reflexivity|]. split; [vm_compute; reflexivity|].
  apply (last_callback_stops_sequence world_you_win 0 0); 
    [exact world_you_win_reachable|vm_compute; reflexivity|vm_compute; reflexivity|reflexivity].
Defined.

(* ------------------------------------------------------------------ *)
(** ** The rhythm game: it never throws, its report, its schedule *)

Lemma song_steps : (String.length song * 4 = 192)%nat.
Proof. reflexivity. Qed.

Lemma game_last_app {A : Type} (l1 l2 : list A) (d : A) :
  l2 <> [] -> last (l1 ++ l2) d = last l2 d.
Proof.
  intros H. induction l1 as [|a l1 IH]; [reflexivity|].
  simpl. rewrite <- IH.
  destruct (l1 ++ l2) eqn:E; [|reflexivity].
  apply app_eq_nil in E. destruct E. contradiction.
Qed.

Lemma ends_ok_app (l1 l2 : list effect) :
  l2 <> [] -> ends_ok l2 = true -> ends_ok (l1 ++ l2) = true.
Proof. intros H E. unfold ends_ok. rewrite game_last_app by exact H. exact E. Qed.

Lemma started_app (l1 l2 : list effect) :
  ends_ok l1 = true -> started (l1 ++ l2) = started l1 ++ started l2.
Proof.
  induction l1 as [|a l1 IH]; intros E; [reflexivity|].
  destruct l1 as [|b l1].
  - destruct a; try discriminate E; reflexivity.
  - assert (E' : ends_ok (b :: l1) = true) by exact E.
    specialize (IH E').
    destruct a, b; simpl in *; rewrite IH; reflexivity.
Qed.

Lemma count_miss_app (l1 l2 : list effect) :
  count_miss (l1 ++ l2) = (count_miss l1 + count_miss l2)%nat.
Proof. unfold count_miss. rewrite filter_app, length_app. reflexivity. Qed.

Lemma game_set_mgr_id (g : Game) : game_set_mgr (g_mgr g) g = g.
Proof. destruct g; reflexivity. Qed.

Lemma game_set_targets_id (g : Game) : game_set_targets (targets g) g = g.
Proof. destruct g; reflexivity. Qed.

Lemma game_play_at (name : string) (t : Q) (g : Game) (b : nat) :
  own_lookup name (soundLibrary (g_mgr g)) = Some b -> Qltb t 0 = false ->
  game_play name (at_offset t) g = (game_set_mgr (mgr_after name t (g_mgr g)) g, None).
Proof.
  intros H Ht. unfold game_play, play, lib_get. rewrite H. cbn [offset at_offset].
  rewrite Ht. reflexivity.
Qed.

Lemma registered_lookup (n : string) :
  registered n = true -> exists b, own_lookup n setup_library = Some b.
Proof.
  unfold registered. destruct (own_lookup n setup_library) as [b|]; [|discriminate].
  intros _. exists b. reflexivity.
Qed.

Lemma mgr_after_facts (n : string) (t : Q) (m : Manager) :
  ends_ok (fx m) = true ->
  soundLibrary (mgr_after n t m) = soundLibrary m
  /\ ends_ok (fx (mgr_after n t m)) = true
  /\ started (fx (mgr_after n t m)) = started (fx m) ++ [(n, t)]
  /\ count_miss (fx (mgr_after n t m))
     = (count_miss (fx m) + if String.eqb n "miss" then 1 else 0)%nat.
Proof.
  intros E. unfold mgr_after. cbn [soundLibrary fx]. split; [reflexivity|].
  split; [apply ends_ok_app; [discriminate|reflexivity]|].
  split; [rewrite started_app by exact E; reflexivity|].
  rewrite count_miss_app. unfold count_miss at 2. simpl.
  destruct (String.eqb n "miss"); reflexivity.
Qed.

Lemma speak_facts (s : string) (vp : option string) (m : Manager) :
  ends_ok (fx m) = true ->
  soundLibrary (speak s vp m) = soundLibrary m
  /\ ends_ok (fx (speak s vp m)) = true
  /\ started (fx (speak s vp m)) = started (fx m)
  /\ count_miss (fx (speak s vp m)) = count_miss (fx m).
Proof.
  intros E. unfold speak. cbn [soundLibrary fx]. split; [reflexivity|].
  split; [apply ends_ok_app; [discriminate|reflexivity]|].
  split; [rewrite started_app by exact E; apply app_nil_r|].
  rewrite count_miss_app. unfold count_miss at 2. simpl. lia.
Qed.

Lemma loop_names_ok (k : nat) :
  (k < 192)%nat ->
  loop_name_ok (js_index backingTrack (k mod 16)) = true
  /\ loop_name_ok (js_index song (k / 4)) = true.
Proof.
  intros Hk.
  assert (H : forallb (fun k => loop_name_ok (js_index backingTrack (k mod 16))
                                && loop_name_ok (js_index song (k / 4)))
                      (seq 0 192) = true) by (vm_compute; reflexivity).
  rewrite forallb_forall in H. specialize (H k).
  rewrite in_seq in H. apply andb_prop, H. lia.
Qed.

Lemma dir_facts (c : ascii) :
  is_dir c = true ->
  (exists k, target_key c = Some k)
  /\ (exists b, own_lookup (String c EmptyString) setup_library = Some b)
  /\ beat_name (String c EmptyString) = false
  /\ String.eqb (String c EmptyString) "miss" = false.
Proof.
  unfold is_dir. intros H.
  repeat (apply orb_prop in H; destruct H as [H|H]);
    apply Ascii.eqb_eq in H; subst c;
    (split; [eexists; reflexivity|split; [eexists; reflexivity|split; reflexivity]]).
Qed.

Lemma inpt_targets_dirs :
  Forall (fun t => is_dir (direction t) = true) (setupTargets_of inpt).
Proof. vm_compute. repeat constructor. Qed.

(** The first, optional, sound of a step of the game loop. *)
Lemma maybe_play_ext (n : string) (t : Q) (g : Game) :
  loop_name_ok n = true ->
  soundLibrary (g_mgr g) = setup_library ->
  ends_ok (fx (g_mgr g)) = true ->
  Qltb t 0 = false ->
  exists m', (if negb (String.eqb n ".") then game_play n (at_offset t) g else (g, None))
             = (game_set_mgr m' g, None)
    /\ soundLibrary m' = setup_library
    /\ ends_ok (fx m') = true
    /\ count_miss (fx m') = count_miss (fx (g_mgr g))
    /\ filter (fun p => beat_name (fst p)) (started (fx m'))
       = filter (fun p => beat_name (fst p)) (started (fx (g_mgr g)))
         ++ (if negb (String.eqb n ".") then [(n, t)] else []).
Proof.
  intros Hn L E Ht. unfold loop_name_ok in Hn.
  destruct (String.eqb n ".") eqn:D; simpl.
  - exists (g_mgr g). rewrite game_set_mgr_id, app_nil_r.
    repeat split; assumption.
  - simpl in Hn. apply andb_prop in Hn as [Hn M].
    apply andb_prop in Hn as [R B].
    destruct (registered_lookup n R) as [b Hb].
    rewrite <- L in Hb. rewrite (game_play_at n t g b Hb Ht).
    destruct (mgr_after_facts n t (g_mgr g) E) as (L' & E' & S' & C').
    exists (mgr_after n t (g_mgr g)).
    split; [reflexivity|split; [rewrite L'; exact L|split; [exact E'|]]].
    apply negb_true_iff in M. rewrite C', M, S', filter_app. simpl. rewrite B.
    split; [lia|reflexivity].
Qed.

Lemma default_at_offset : default_play_opts = at_offset 0.
Proof. reflexivity. Qed.

(** The game's step times are not negative once its start time is at least
    [-STARTUP_DELAY] (the engine clock starts at 0). *)
Lemma step_time_ok (k : nat) (s : Q) :
  0 <= s + STARTUP_DELAY -> Qltb (Q_of_nat k * 1 / 4 + s + STARTUP_DELAY) 0 = false.
Proof.
  intros H. unfold Qltb. apply negb_false_iff, Qle_bool_iff.
  assert (K : 0 <= Q_of_nat k * 1 / 4).
  { apply Qle_shift_div_l; [reflexivity|].
    unfold Q_of_nat. rewrite Qmult_1_r, Qmult_0_l.
    change 0 with (inject_Z 0). rewrite <- Zle_Qle. lia. }
  unfold STARTUP_DELAY in *. lra.
Qed.

Lemma schedule_step_cases (now : Q) (g : Game) :
  soundLibrary (g_mgr g) = setup_library ->
  ends_ok (fx (g_mgr g)) = true ->
  (totalSteps g < 192)%nat ->
  currentStep g = totalSteps g mod 16 ->
  0 <= startTime g + STARTUP_DELAY ->
  schedule_step now g = (g, None)
  \/ exists m', schedule_step now g
                = (game_set_steps (S (totalSteps g)) (S (totalSteps g) mod 16)
                                  (game_set_mgr m' g), None)
       /\ soundLibrary m' = setup_library
       /\ ends_ok (fx m') = true
       /\ count_miss (fx m') = count_miss (fx (g_mgr g))
       /\ filter (fun p => beat_name (fst p)) (started (fx m'))
          = filter (fun p => beat_name (fst p)) (started (fx (g_mgr g)))
            ++ step_sounds (startTime g) (totalSteps g).
Proof.
  intros L E Hk Hc H0. unfold schedule_step. cbv zeta.
  pose proof (step_time_ok (totalSteps g) (startTime g) H0) as Ht.
  destruct (Qltb _ LOOKAHEAD); [right|left; reflexivity].
  destruct (loop_names_ok (totalSteps g) Hk) as [Ob Os]. rewrite <- Hc in Ob.
  destruct (maybe_play_ext _ (Q_of_nat (totalSteps g) * 1 / 4 + startTime g + STARTUP_DELAY)
              g Ob L E Ht) as (m1 & P1 & L1 & E1 & C1 & S1).
  rewrite P1. cbn [gthen].
  change (totalSteps (game_set_mgr m1 g)) with (totalSteps g).
  unfold step_sounds, step_time. rewrite <- Hc.
  destruct (Nat.eqb (totalSteps g mod 4) 0) eqn:F.
  - destruct (maybe_play_ext _ (Q_of_nat (totalSteps g) * 1 / 4 + startTime g + STARTUP_DELAY)
                (game_set_mgr m1 g) Os L1 E1 Ht) as (m2 & P2 & L2 & E2 & C2 & S2).
    rewrite P2. cbn [gthen]. exists m2.
    split; [reflexivity|split; [exact L2|split; [exact E2|split]]].
    + rewrite C2. exact C1.
    + rewrite S2. change (g_mgr (game_set_mgr m1 g)) with m1. rewrite S1, app_assoc.
      reflexivity.
  - cbn [gthen]. exists m1.
    split; [reflexivity|split; [exact L1|split; [exact E1|split]]].
    + exact C1.
    + rewrite S1. simpl andb. rewrite app_nil_r. reflexivity.
Qed.

Lemma inv_playing (t0 : Q) (g : Game) :
  soundLibrary (g_mgr g) = setup_library ->
  Forall (fun t => is_dir (direction t) = true) (targets g) ->
  gameState g = GS_playing ->
  (totalSteps g < 192)%nat ->
  currentStep g = totalSteps g mod 16 ->
  startTime g = t0 ->
  mistakes g = count_miss (fx (g_mgr g)) ->
  filter (fun p => beat_name (fst p)) (started (fx (g_mgr g))) = schedule t0 (totalSteps g) ->
  ends_ok (fx (g_mgr g)) = true ->
  game_inv t0 g.
Proof.
  intros L D G Hk Hc Ht M S E. unfold game_inv. rewrite song_steps, G.
  repeat split; try assumption; try discriminate; lia.
Qed.

Lemma inv_gameover (t0 : Q) (g : Game) :
  soundLibrary (g_mgr g) = setup_library ->
  Forall (fun t => is_dir (direction t) = true) (targets g) ->
  gameState g = GS_gameover ->
  totalSteps g = 192%nat ->
  mistakes g = count_miss (fx (g_mgr g)) ->
  (exists pre, fx (g_mgr g)
               = pre ++ [Fx_utterance (game_over_text (count_miss pre)) None (3 # 2);
                         Fx_speak (game_over_text (count_miss pre))]) ->
  filter (fun p => beat_name (fst p)) (started (fx (g_mgr g))) = schedule t0 (totalSteps g) ->
  ends_ok (fx (g_mgr g)) = true ->
  game_inv t0 g.
Proof.
  intros L D G Hk M O S E. unfold game_inv. rewrite song_steps, G.
  repeat split; try assumption; try discriminate; lia.
Qed.

Lemma inv_null (t0 : Q) (g : Game) :
  soundLibrary (g_mgr g) = setup_library ->
  Forall (fun t => is_dir (direction t) = true) (targets g) ->
  gameState g = GS_null ->
  filter (fun p => beat_name (fst p)) (started (fx (g_mgr g))) = schedule t0 (totalSteps g) ->
  ends_ok (fx (g_mgr g)) = true ->
  (totalSteps g <= 192)%nat ->
  game_inv t0 g.
Proof.
  intros L D G S E B. unfold game_inv. rewrite song_steps, G.
  repeat split; try assumption; try discriminate; try congruence.
Qed.

Lemma inv_set_targets (t0 : Q) (g : Game) (ts : list target) :
  game_inv t0 g -> Forall (fun t => is_dir (direction t) = true) ts ->
  game_inv t0 (game_set_targets ts g).
Proof.
  intros (L & D & P & M & O & S & E & B) D'.
  destruct g. unfold game_inv in *. cbn in *. tauto.
Qed.

Lemma expire_targets (now : Q) (g : Game) :
  Forall (fun t => is_dir (direction t) = true) (targets g) ->
  exists ts, expire now g = game_set_targets ts g
             /\ Forall (fun t => is_dir (direction t) = true) ts.
Proof.
  intros D. unfold expire. destruct (targets g) as [|tg rest] eqn:T.
  - exists []. split; [|constructor]. rewrite <- T, game_set_targets_id. reflexivity.
  - inversion D as [|? ? _ Dr]. destruct (Qltb _ now).
    + exists rest. split; [reflexivity|exact Dr].
    + exists (targets g). rewrite game_set_targets_id, T. split; [reflexivity|exact D].
Qed.

Lemma play_miss_inv (t0 : Q) (g : Game) :
  game_inv t0 g -> gameState g = GS_playing ->
  exists g', play_miss g = (g', None) /\ game_inv t0 g' /\ gameState g' = GS_playing.
Proof.
  intros H G. pose proof H as (L & D & P & M & O & S & E & B).
  destruct (P G) as (Hk & Hc & Ht). rewrite song_steps in Hk.
  assert (Mg : mistakes g = count_miss (fx (g_mgr g))) by (apply M; rewrite G; discriminate).
  assert (Hb : own_lookup "miss" (soundLibrary (g_mgr g)) = Some 10%nat)
    by (rewrite L; reflexivity).
  unfold play_miss. rewrite default_at_offset, (game_play_at _ 0 _ _ Hb eq_refl). cbn [gthen].
  destruct (mgr_after_facts "miss" 0 (g_mgr g) E) as (L' & E' & S' & C').
  eexists. split; [reflexivity|]. split; [|exact G].
  apply inv_playing; cbn [game_set_mistakes game_set_mgr g_mgr targets gameState totalSteps
                          currentStep startTime mistakes]; try assumption.
  - rewrite C', Mg. simpl. lia.
  - rewrite S', filter_app. simpl. rewrite app_nil_r. exact S.
Qed.

Lemma play_hit_inv (t0 : Q) (g : Game) (c : ascii) :
  game_inv t0 g -> gameState g = GS_playing -> is_dir c = true ->
  exists g', game_play (String c EmptyString) default_play_opts g = (g', None)
             /\ game_inv t0 g' /\ gameState g' = GS_playing.
Proof.
  intros H G Hd. pose proof H as (L & D & P & M & O & S & E & B).
  destruct (P G) as (Hk & Hc & Ht). rewrite song_steps in Hk.
  assert (Mg : mistakes g = count_miss (fx (g_mgr g))) by (apply M; rewrite G; discriminate).
  destruct (dir_facts c Hd) as (_ & [b Hb] & Bn & Mn).
  rewrite <- L in Hb.
  rewrite default_at_offset, (game_play_at _ 0 _ _ Hb eq_refl).
  destruct (mgr_after_facts (String c EmptyString) 0 (g_mgr g) E) as (L' & E' & S' & C').
  eexists. split; [reflexivity|]. split; [|exact G].
  apply inv_playing; cbn [game_set_mgr g_mgr targets gameState totalSteps
                          currentStep startTime mistakes]; try assumption.
  - rewrite C', Mn, Mg. lia.
  - rewrite S', filter_app. simpl. rewrite Bn, app_nil_r. exact S.
Qed.

Lemma gameLoop_inv (t0 : Q) (now : Q) (g : Game) :
  0 <= t0 + STARTUP_DELAY ->
  game_inv t0 g -> snd (gameLoop now g) = None /\ game_inv t0 (fst (gameLoop now g)).
Proof.
  intros H0 H. pose proof H as (L & D & P & M & O & Sc & E & B).
  unfold gameLoop. destruct (gameState g) eqn:G; try (split; [reflexivity|exact H]).
  destruct (P eq_refl) as (Hk & Hc & Ht). rewrite song_steps in Hk.
  assert (Mg : mistakes g = count_miss (fx (g_mgr g))) by (apply M; discriminate).
  destruct (expire_targets now g D) as (ts & X & Dts). rewrite X.
  assert (H0' : 0 <= startTime (game_set_targets ts g) + STARTUP_DELAY).
  { change (startTime (game_set_targets ts g)) with (startTime g). rewrite Ht. exact H0. }
  destruct (schedule_step_cases now (game_set_targets ts g) L E Hk Hc H0')
    as [Y | (m' & Y & L' & E' & C' & S')]; rewrite Y; cbn [gthen].
  - change (totalSteps (game_set_targets ts g)) with (totalSteps g). rewrite song_steps.
    destruct (Nat.leb_spec 192 (totalSteps g)); [lia|].
    split; [reflexivity|]. apply inv_set_targets; assumption.
  - cbn [game_set_steps game_set_mgr game_set_targets totalSteps]. rewrite song_steps.
    change (g_mgr (game_set_targets ts g)) with (g_mgr g) in C', S'.
    change (startTime (game_set_targets ts g)) with (startTime g) in S'.
    change (totalSteps (game_set_targets ts g)) with (totalSteps g) in S'.
    rewrite Ht in S'.
    assert (Sch : filter (fun p => beat_name (fst p)) (started (fx m'))
                  = schedule t0 (S (totalSteps g))) by (rewrite S', Sc; reflexivity).
    destruct (Nat.leb_spec 192 (S (totalSteps g))).
    + split; [reflexivity|].
      destruct (speak_facts (game_over_text (mistakes g)) None m' E')
        as (Ls & Es & Ss & Cs).
      apply inv_gameover; cbn [fst game_over game_set_steps game_set_mgr game_set_targets
                               g_mgr targets gameState totalSteps mistakes];
        try assumption; try reflexivity.
      * lia.
      * rewrite Cs, C'. exact Mg.
      * exists (fx m'). rewrite C', <- Mg. reflexivity.
      * rewrite Ss. exact Sch.
    + split; [reflexivity|].
      apply inv_playing; cbn [fst game_set_steps game_set_mgr game_set_targets
                              g_mgr targets gameState totalSteps currentStep startTime
                              mistakes]; try assumption; try reflexivity.
      rewrite C'. exact Mg.
Qed.

Lemma handleInput_inv (t0 : Q) (key : string) (now : Q) (g : Game) :
  game_inv t0 g ->
  snd (handleInput key now g) = None /\ game_inv t0 (fst (handleInput key now g)).
Proof.
  intros H. pose proof H as (L & D & P & M & O & Sc & E & B).
  unfold handleInput. destruct (gameState g) eqn:G.
  - split; [reflexivity|exact H].
  - destruct (targets g) as [|tg rest] eqn:T.
    + destruct (play_miss_inv t0 g H G) as (g' & Y & I & _). rewrite Y.
      split; [reflexivity|exact I].
    + inversion D as [|? ? Dtg Drest]; subst.
      cbv zeta. unfold Qltb.
      destruct (Qle_bool (adjusted_time tg g - TIME_BEFORE) now); cbn [negb].
      * destruct (dir_facts _ Dtg) as ([k Hk] & _). rewrite Hk.
        destruct (negb (String.eqb key k)).
        -- destruct (play_miss_inv t0 g H G) as (g' & Y & I & _). rewrite Y. cbn [gthen].
           split; [reflexivity|]. apply inv_set_targets; assumption.
        -- destruct (play_hit_inv t0 g _ H G Dtg) as (g' & Y & I & _). rewrite Y.
           cbn [gthen]. split; [reflexivity|]. apply inv_set_targets; assumption.
      * destruct (play_miss_inv t0 g H G) as (g' & Y & I & _). rewrite Y.
        split; [reflexivity|exact I].
  - destruct (String.eqb key "a"); [|split; [reflexivity|exact H]].
    split; [reflexivity|].
    apply inv_null; cbn [fst resetGame g_mgr targets gameState totalSteps]; try assumption.
    all: first [exact inpt_targets_dirs | reflexivity].
Qed.

Lemma game_step_inv (t0 : Q) (g : Game) (e : gev) :
  0 <= t0 + STARTUP_DELAY ->
  game_inv t0 g -> snd (game_step g e) = None /\ game_inv t0 (fst (game_step g e)).
Proof.
  intros H0. destruct e as [now|key now]; simpl.
  - apply gameLoop_inv, H0.
  - apply handleInput_inv.
Qed.

Lemma game_run_inv (t0 : Q) (evs : list gev) (g : Game) :
  0 <= t0 + STARTUP_DELAY ->
  game_inv t0 g -> snd (game_run g evs) = [] /\ game_inv t0 (fst (game_run g evs)).
Proof.
  intros H0. revert g. induction evs as [|e evs IH]; intros g H;
    [split; [reflexivity|exact H]|].
  simpl. destruct (game_step_inv t0 g e H0 H) as [N I].
  destruct (game_step g e) as [g1 r]. simpl in N, I. subst r.
  destruct (IH g1 I) as [N' I']. destruct (game_run g1 evs) as [g2 xs].
  simpl in *. split; assumption.
Qed.

Lemma game_start_inv (t0 : Q) : game_inv t0 (game_start t0).
Proof.
  apply inv_playing; try reflexivity.
  - exact inpt_targets_dirs.
  - simpl. lia.
Qed.

Lemma game_run_app (g : Game) (l1 l2 : list gev) :
  game_run g (l1 ++ l2)
  = let '(g1, x1) := game_run g l1 in let '(g2, x2) := game_run g1 l2 in (g2, x1 ++ x2).
Proof.
  revert g. induction l1 as [|e l1 IH]; intros g; simpl.
  - destruct (game_run g l2); reflexivity.
  - destruct (game_step g e) as [g1 r]. rewrite IH.
    destruct (game_run g1 l1) as [g2 x1]. destruct (game_run g2 l2) as [g3 x2].
    destruct r; reflexivity.
Qed.

Lemma game_null_inert (g : Game) (evs : list gev) :
  gameState g = GS_null -> game_run g evs = (g, []).
Proof.
  intros G. induction evs as [|e evs IH]; [reflexivity|].
  simpl. destruct e as [now|key now]; simpl; unfold gameLoop, handleInput; rewrite G;
    rewrite IH; reflexivity.
Qed.

(** The rhythm game never throws: from [gamePlay] on, whatever the ticks
    and key presses and their times, no call of [gameLoop] or
    [handleInput] raises an exception. Every name it plays is in the sound
    library ([backingTrack] and [song] are only read at indexes inside
    them, [totalSteps] staying below [song.length * 4] while playing), and
    every target's direction is one of u, d, l, r. The start time [t0]
    is a reading of the engine clock ([getTime()], never negative), so
    every scheduled [start] time [t0 + STARTUP_DELAY + k/4] is valid. *)
Theorem game_never_throws (t0 : Q) (evs : list gev) :
  0 <= t0 + STARTUP_DELAY ->
  snd (game_run (game_start t0) evs) = [].
Proof. intros H0. apply (game_run_inv t0 evs _ H0), game_start_inv. Qed.

Lemma game_never_throws_witness :
  0 <= 0 + STARTUP_DELAY
  /\ snd (game_run (game_start 0) (G_key "ArrowDown" 3 :: ticks_to_end)) = [].
Proof.
  split; [apply Qle_bool_iff; reflexivity|].
  apply (game_never_throws 0 (G_key "ArrowDown" 3 :: ticks_to_end)).
  apply Qle_bool_iff; reflexivity.
Defined.

(** The game's beats: the drum and called-out sounds started during a run
    are exactly the first [totalSteps] steps of the song, in order, each
    at [t0 + STARTUP_DELAY + k/4] for step [k] (backing sound first, then
    the instruction on every fourth step); [totalSteps] never passes
    [song.length * 4]. *)
Theorem game_schedule (t0 : Q) (evs : list gev) :
  0 <= t0 + STARTUP_DELAY ->
  filter (fun p => beat_name (fst p))
         (started (fx (g_mgr (fst (game_run (game_start t0) evs)))))
  = schedule t0 (totalSteps (fst (game_run (game_start t0) evs)))
  /\ (totalSteps (fst (game_run (game_start t0) evs)) <= String.length song * 4)%nat.
Proof.
  intros H0.
  destruct (game_run_inv t0 evs _ H0 (game_start_inv t0))
    as [_ (_ & _ & _ & _ & _ & Sc & _ & B)].
  split; assumption.
Qed.

Lemma game_schedule_witness :
  0 <= 0 + STARTUP_DELAY
  /\ filter (fun p => beat_name (fst p))
            (started (fx (g_mgr (fst (game_run (game_start 0) [G_tick 4; G_tick 5])))))
     = schedule 0 (totalSteps (fst (game_run (game_start 0) [G_tick 4; G_tick 5])))
  /\ (totalSteps (fst (game_run (game_start 0) [G_tick 4; G_tick 5]))
      <= String.length song * 4)%nat.
Proof.
  split; [apply Qle_bool_iff; reflexivity|].
  apply (game_schedule 0 [G_tick 4; G_tick 5]).
  apply Qle_bool_iff; reflexivity.
Defined.

(** Game over: once a run reaches the game-over state, the song has run
    all its [song.length * 4] steps, the game's last action was to speak
    "Game over. You made N mistakes. Press A to restart.", and N (the
    [mistakes] counter) is the number of buzzer ("miss") sounds played
    before it; nothing has been played or spoken since. *)
Theorem game_over_report (t0 : Q) (evs : list gev) :
  0 <= t0 + STARTUP_DELAY ->
  gameState (fst (game_run (game_start t0) evs)) = GS_gameover ->
  totalSteps (fst (game_run (game_start t0) evs)) = (String.length song * 4)%nat
  /\ exists pre,
       fx (g_mgr (fst (game_run (game_start t0) evs)))
       = pre ++ [Fx_utterance (game_over_text (count_miss pre)) None (3 # 2);
                 Fx_speak (game_over_text (count_miss pre))]
       /\ mistakes (fst (game_run (game_start t0) evs)) = count_miss pre.
Proof.
  intros H0 G.
  destruct (game_run_inv t0 evs _ H0 (game_start_inv t0))
    as [_ (_ & _ & _ & M & O & _ & _ & _)].
  destruct (O G) as (Hk & pre & F). split; [exact Hk|].
  exists pre. split; [exact F|].
  rewrite M by (rewrite G; discriminate). rewrite F, count_miss_app.
  unfold count_miss at 2. simpl. lia.
Qed.

Lemma game_over_report_witness :
  0 <= 0 + STARTUP_DELAY
  /\ gameState (fst (game_run (game_start 0) (G_key "ArrowDown" 3 :: ticks_to_end)))
    = GS_gameover
  /\ totalSteps (fst (game_run (game_start 0) (G_key "ArrowDown" 3 :: ticks_to_end)))
     = (String.length song * 4)%nat
  /\ exists pre,
       fx (g_mgr (fst (game_run (game_start 0) (G_key "ArrowDown" 3 :: ticks_to_end))))
       = pre ++ [Fx_utterance (game_over_text (count_miss pre)) None (3 # 2);
                 Fx_speak (game_over_text (count_miss pre))]
       /\ mistakes (fst (game_run (game_start 0) (G_key "ArrowDown" 3 :: ticks_to_end)))
          = count_miss pre.
Proof.
  assert (G : gameState (fst (game_run (game_start 0) (G_key "ArrowDown" 3 :: ticks_to_end)))
              = GS_gameover) by (vm_compute; reflexivity).
  assert (H0 : 0 <= 0 + STARTUP_DELAY) by (apply Qle_bool_iff; reflexivity).
  split; [exact H0|]. split; [exact G|]. exact (game_over_report 0 _ H0 G).
Defined.

(** "Press A to restart" does not restart: pressing "a" in the game-over
    state calls [resetGame], which sets [gameState] to [null], sets
    [totalBeats] (not [totalSteps], which stays at [song.length * 4]);
    from then on every tick and every key press leaves the game unchanged
    and throws nothing, so nothing is ever played again. *)
Theorem reset_leaves_game_inert (t0 now : Q) (evs evs' : list gev) :
  0 <= t0 + STARTUP_DELAY ->
  gameState (fst (game_run (game_start t0) evs)) = GS_gameover ->
  let g := fst (game_run (game_start t0) (evs ++ [G_key "a" now])) in
  gameState g = GS_null /\ totalSteps g = (String.length song * 4)%nat
  /\ totalBeats g = Some 0%nat /\ game_run g evs' = (g, []).
Proof.
  intros H0 G.
  destruct (game_run_inv t0 evs _ H0 (game_start_inv t0))
    as [_ (_ & _ & _ & _ & O & _ & _ & _)].
  destruct (O G) as (Hk & _).
  rewrite game_run_app.
  destruct (game_run (game_start t0) evs) as [g1 x1]. simpl in G, Hk |- *.
  unfold handleInput. rewrite G. simpl.
  split; [reflexivity|split; [exact Hk|split; [reflexivity|]]].
  apply game_null_inert. reflexivity.
Qed.

Lemma reset_leaves_game_inert_witness :
  0 <= 0 + STARTUP_DELAY
  /\ gameState (fst (game_run (game_start 0) ticks_to_end)) = GS_gameover
  /\ let g := fst (game_run (game_start 0) (ticks_to_end ++ [G_key "a" 150])) in
     gameState g = GS_null /\ totalSteps g = (String.length song * 4)%nat
     /\ totalBeats g = Some 0%nat
     /\ game_run g [G_tick 151; G_key "ArrowUp" 152] = (g, []).
Proof.
  assert (G : gameState (fst (game_run (game_start 0) ticks_to_end)) = GS_gameover)
    by (vm_compute; reflexivity).
  assert (H0 : 0 <= 0 + STARTUP_DELAY) by (apply Qle_bool_iff; reflexivity).
  split; [exact H0|]. split; [exact G|].
  exact (reset_leaves_game_inert 0 150 ticks_to_end _ H0 G).
Defined.

Lemma setup_from_spec (p : string) (i : nat) :
  map t_startTime (setup_from p i)
  = filter (fun j => match String.get (j - i) p with
                     | Some c => negb (Ascii.eqb c "."%char) | None => false end)
           (seq i (String.length p))
  /\ Forall (fun t => i <= t_startTime t
                      /\ String.get (t_startTime t - i) p = Some (direction t))%nat
            (setup_from p i).
Proof.
  revert i. induction p as [|c p IH]; intros i; [split; [reflexivity|constructor]|].
  destruct (IH (S i)) as [H1 H2].
  assert (Ef : filter (fun j => match String.get (j - i) (String c p) with
                                | Some c => negb (Ascii.eqb c "."%char) | None => false end)
                      (seq (S i) (String.length p))
               = filter (fun j => match String.get (j - S i) p with
                                  | Some c => negb (Ascii.eqb c "."%char) | None => false end)
                        (seq (S i) (String.length p))).
  { apply filter_ext_in. intros j Hj. apply in_seq in Hj.
    replace (j - i)%nat with (S (j - S i)) by lia. reflexivity. }
  assert (F2 : Forall (fun t => i <= t_startTime t
                                /\ String.get (t_startTime t - i) (String c p)
                                   = Some (direction t))%nat (setup_from p (S i))).
  { eapply Forall_impl; [|exact H2]. intros t [A B]. split; [lia|].
    replace (t_startTime t - i)%nat with (S (t_startTime t - S i)) by lia. exact B. }
  cbn [setup_from String.length seq filter]. rewrite Nat.sub_diag.
  change (String.get 0 (String c p)) with (Some c). cbn beta iota.
  destruct (Ascii.eqb c "."%char) eqn:D; cbn [negb].
  - split; [rewrite Ef; exact H1|exact F2].
  - cbn [map t_startTime]. split; [rewrite Ef, H1; reflexivity|].
    constructor; [|exact F2]. cbn [t_startTime direction].
    rewrite Nat.sub_diag. split; [lia|reflexivity].
Qed.

(** [setupTargets()] makes one target for each character of the pattern
    other than ".", in the order of the pattern: the targets' start times
    are exactly the indexes of those characters, increasing, and each
    target's direction is the character at its start time. *)
Theorem setupTargets_positions (p : string) :
  map t_startTime (setupTargets_of p)
  = filter (fun j => match String.get j p with
                     | Some c => negb (Ascii.eqb c "."%char) | None => false end)
           (seq 0 (String.length p))
  /\ Forall (fun t => String.get (t_startTime t) p = Some (direction t)) (setupTargets_of p).
Proof.
  destruct (setup_from_spec p 0) as [H1 H2]. unfold setupTargets_of. split.
  - rewrite H1. apply filter_ext_in. intros j _. rewrite Nat.sub_0_r. reflexivity.
  - eapply Forall_impl; [|exact H2]. intros t [_ B].
    rewrite Nat.sub_0_r in B. exact B.
Qed.

(* ------------------------------------------------------------------ *)
(** ** The on-screen log *)

Lemma lastn_absorb {A : Type} (n : nat) (l r : list A) :
  lastn n (lastn n l ++ r) = lastn n (l ++ r).
Proof.
  unfold lastn. rewrite !length_app, length_skipn.
  destruct (Nat.le_gt_cases n (List.length l)) as [H|H].
  - replace (List.length l - (List.length l - n) + List.length r - n)%nat
      with (List.length r) by lia.
    replace (List.length l + List.length r - n)%nat
      with (List.length r + (List.length l - n))%nat by lia.
    rewrite <- skipn_skipn, (skipn_app (List.length l - n) l r).
    replace (List.length l - n - List.length l)%nat with 0%nat by lia.
    reflexivity.
  - replace (List.length l - n)%nat with 0%nat by lia.
    rewrite Nat.sub_0_r. reflexivity.
Qed.

Lemma trim_children_window (maxElements : nat) (children : list div) :
  (1 <= maxElements)%nat ->
  trim_children maxElements children
  = Ok (skipn (List.length children + 1 - maxElements) children).
Proof.
  intros Hm. induction children as [|a rest IH].
  - cbn. destruct maxElements as [|k]; [lia|reflexivity].
  - cbn [trim_children List.length].
    destruct (Nat.leb_spec maxElements (S (List.length rest))) as [H|H].
    + rewrite IH.
      replace (S (List.length rest) + 1 - maxElements)%nat
        with (S (List.length rest + 1 - maxElements)) by lia.
      reflexivity.
    + replace (S (List.length rest) + 1 - maxElements)%nat with 0%nat by lia.
      reflexivity.
Qed.

Lemma showText_window (maxElements : nat) (children : list div) (d : div) :
  (1 <= maxElements)%nat -> (List.length children <= maxElements)%nat ->
  showText maxElements children d = Ok (lastn maxElements (children ++ [d])).
Proof.
  intros Hm Hc. unfold showText, lastn. rewrite trim_children_window by exact Hm.
  rewrite length_app, skipn_app. simpl.
  replace (List.length children + 1 - maxElements - List.length children)%nat
    with 0%nat by lia.
  reflexivity.
Qed.

Lemma lastn_length {A : Type} (n : nat) (l : list A) : (List.length (lastn n l) <= n)%nat.
Proof. unfold lastn. rewrite length_skipn. lia. Qed.

(** The on-screen log keeps the last [maxElements] lines: starting from a
    panel with at most [maxElements] lines, showing a list of lines leaves
    exactly the last [maxElements] of the old and new lines, oldest first,
    and never throws. *)
Theorem ui_panel_keeps_last (maxElements : nat) (children ds : list div) :
  (1 <= maxElements)%nat -> (List.length children <= maxElements)%nat ->
  showText_all maxElements children ds = Ok (lastn maxElements (children ++ ds)).
Proof.
  intros Hm. revert children. induction ds as [|d ds IH]; intros children Hc; simpl.
  - unfold lastn. rewrite app_nil_r.
    replace (List.length children - maxElements)%nat with 0%nat by lia. reflexivity.
  - rewrite showText_window by assumption.
    rewrite IH by apply lastn_length.
    rewrite lastn_absorb, <- app_assoc. reflexivity.
Qed.

Lemma ui_panel_keeps_last_witness :
  (1 <= 2)%nat /\ (List.length (@nil div) <= 2)%nat
  /\ showText_all 2 [] [showMainAudio "a"; showMainAudio "b"; showSoundEffect "c" (-1)]
     = Ok [showMainAudio "b"; showSoundEffect "c" (-1)].
Proof.
  split; [lia|]. split; [simpl; lia|].
  exact (ui_panel_keeps_last 2 [] _ ltac:(lia) ltac:(simpl; lia)).
Defined.

(** A [UserInterface] with [maxElements] 0 cannot show anything: the
    [while] loop empties the panel and then calls [removeChild(null)],
    which throws. *)
Theorem showText_zero_throws (children : list div) (d : div) :
  showText 0 children d = Throw removeChild_null.
Proof.
  unfold showText. induction children as [|a rest IH]; [reflexivity|].
  simpl. simpl in IH. exact IH.
Qed.

Lemma play_graph_silent (src : nat) (o : play_opts) : ui_lines (play_graph src o) = [].
Proof.
  unfold play_graph.
  destruct (negb (Qeq_bool (volume o) 1)), (negb (Qeq_bool (panValue o) 0)); reflexivity.
Qed.

(** What the log shows of the manager: a [play] of a registered name with
    [offset >= 0] adds exactly one line, "sound: " followed by " (left)"
    for a negative pan or " (right)" for a positive one and then the name,
    whatever the callback, volume and loop; with [offset < 0] [start]
    throws before the [soundEffect] event and no line is added; a [speak]
    adds one "narrator: " line. *)
Theorem play_and_speak_lines (name : string) (o : play_opts) (m : Manager) (b : nat) :
  own_lookup name (soundLibrary m) = Some b ->
  ui_lines (fx (fst (play name o m)))
  = ui_lines (fx m)
    ++ (if Qltb (offset o) 0 then [] else [showSoundEffect name (panValue o)])
  /\ forall text vp,
       ui_lines (fx (speak text vp m)) = ui_lines (fx m) ++ [showMainAudio text].
Proof.
  intros H. split.
  - unfold play, lib_get. rewrite H.
    destruct (Qltb (offset o) 0); cbn [fst fx]; unfold ui_lines;
      rewrite !flat_map_app; fold (ui_lines (play_graph (next_node m) o));
      rewrite play_graph_silent; destruct (callback o); reflexivity.
  - intros text vp. unfold speak, ui_lines. cbn [fx]. rewrite flat_map_app. reflexivity.
Qed.

Lemma play_and_speak_lines_witness :
  own_lookup "rain" (soundLibrary (addSound "rain" 1 fresh_manager)) = Some 1%nat
  /\ ui_lines (fx (fst (play "rain" opts_loop (addSound "rain" 1 fresh_manager))))
     = [showSoundEffect "rain" 0].
Proof.
  split; [reflexivity|].
  exact (proj1 (play_and_speak_lines "rain" opts_loop (addSound "rain" 1 fresh_manager) 1 eq_refl)).
Defined.
